(** * Operator control of the mini bot: drive mixer and claw sequencing

    Shallow embedding of [src/opcontrol.c]: the [drive] routine (input
    shaping, arcade mixing, normalisation) and the per-cycle body of
    [operatorControl] (low-speed toggle, turn-axis gating, claw state
    machine, arm speed).

    C integers are modelled as [Z] with the conversions written out; the
    C [float] and [double] values are modelled with the Standard Library's
    executable IEEE-754 specification [SpecFloat], instantiated at
    binary32 and binary64, so every definition below can be evaluated. *)

From Stdlib Require Import ZArith List Bool Lia.
From Stdlib Require Import Floats.SpecFloat.
Import ListNotations.

Local Open Scope Z_scope.

(** ** Fallible computations

    A C conversion whose result is not representable has no defined
    behaviour; such steps return [None]. *)

Definition bind {A B : Type} (c : option A) (k : A -> option B) : option B :=
  match c with
  | Some a => k a
  | None => None
  end.

Notation "x <- c ;; k" := (bind c (fun x => k))
  (at level 61, c at next level, right associativity).

(** ** Machine integers *)

Module CInt.

Definition in_int8 (z : Z) : Prop := -128 <= z <= 127.
Definition in_int16 (z : Z) : Prop := -32768 <= z <= 32767.

Definition in_int8b (z : Z) : bool := (-128 <=? z) && (z <=? 127).
Definition in_int16b (z : Z) : bool := (-32768 <=? z) && (z <=? 32767).
Definition in_int32b (z : Z) : bool :=
  (-2147483648 <=? z) && (z <=? 2147483647).

(** Integer-to-integer narrowing as the target compiler performs it:
    reduction modulo [2^w] into the signed range. *)
Definition wrap (w : Z) (z : Z) : Z :=
  let m := 2 ^ w in
  let r := z mod m in
  if r <? 2 ^ (w - 1) then r else r - m.

Definition cast_int8 : Z -> Z := wrap 8.
Definition cast_int16 : Z -> Z := wrap 16.

End CInt.

(** ** Floating point: binary32 ([float]) and binary64 ([double]) *)

Module CFloat.

Definition float32 := spec_float.
Definition float64 := spec_float.

Definition prec32 : Z := 24.
Definition emax32 : Z := 128.
Definition prec64 : Z := 53.
Definition emax64 : Z := 1024.

(** [(float) n] for an integer [n]. *)
Definition f32_of_int (n : Z) : float32 :=
  binary_normalize prec32 emax32 n 0 false.

(** [(double) n] for an integer [n]. *)
Definition f64_of_int (n : Z) : float64 :=
  binary_normalize prec64 emax64 n 0 false.

Definition f32_div : float32 -> float32 -> float32 := SFdiv prec32 emax32.
Definition f32_mul : float32 -> float32 -> float32 := SFmul prec32 emax32.
Definition f64_mul : float64 -> float64 -> float64 := SFmul prec64 emax64.

(** Widening of a [float] operand to [double] (exact). *)
Definition f64_of_f32 (x : float32) : float64 :=
  match x with
  | S754_finite s m e => binary_round prec64 emax64 s m e
  | _ => x
  end.

(** Narrowing of a [double] result assigned to a [float] object
    (round to nearest, ties to even). *)
Definition f32_of_f64 (x : float64) : float32 :=
  match x with
  | S754_finite s m e => binary_round prec32 emax32 s m e
  | _ => x
  end.

(** [fabs] takes and returns a [double]. *)
Definition fabs (x : float64) : float64 := SFabs x.

Definition fneg (x : spec_float) : spec_float := SFopp x.

(** Conversion of a floating value to an integer type: the fractional
    part is discarded (truncation toward zero). *)
Definition trunc (x : spec_float) : option Z :=
  match x with
  | S754_zero _ => Some 0
  | S754_finite s m e =>
      let a := match e with
               | Zneg p => Z.shiftr (Zpos m) (Zpos p)
               | _ => Z.shiftl (Zpos m) e
               end in
      Some (if s then - a else a)
  | _ => None
  end.

(** The conversion is defined only when the integral part fits the
    destination type. *)
Definition to_int8 (x : spec_float) : option Z :=
  z <- trunc x ;; if CInt.in_int8b z then Some z else None.

Definition to_int16 (x : spec_float) : option Z :=
  z <- trunc x ;; if CInt.in_int16b z then Some z else None.

Definition to_int (x : spec_float) : option Z :=
  z <- trunc x ;; if CInt.in_int32b z then Some z else None.

Definition f32_one : float32 := f32_of_int 1.

(** [a < b] on floats. *)
Definition fltb (a b : spec_float) : bool := SFltb a b.

End CFloat.

Import CFloat.

(** ** Constants of [opcontrol.c] *)

(** Modelled from the spec: [MAX_SPEED] is declared in [main.h], which is
    not among the sources.  The spec gives it as the ceiling of the motor
    command range and of the signed 8-bit analog readings
    [[-MAX_SPEED, MAX_SPEED]], that is 127. *)
Definition MAX_SPEED : Z := 127.

Definition CLAW_SPEED : Z := -60.
Definition CLAW_OPEN_DURATION : Z := 30.
Definition GRIP_STRENGTH : Z := -40.
Definition ARM_MAX_SPEED : Z := MAX_SPEED.
Definition LOW_SPEED_DIVISOR : Z := 2.

(** ** The drive routine *)

(** Lines 71-74 (and 76-79): the square-curve shaping of one axis.
    [m = (float) x / MAX_SPEED; m *= fabs(m); m *= MAX_SPEED; x = m;]
    The middle product is evaluated in [double] because [fabs] returns
    one, and is rounded back to [float] by the assignment. *)
Definition shape_float (x : Z) : float32 :=
  let m := f32_div (f32_of_int x) (f32_of_int MAX_SPEED) in
  let m := f32_of_f64 (f64_mul (f64_of_f32 m) (fabs (f64_of_f32 m))) in
  f32_mul m (f32_of_int MAX_SPEED).

Definition square_input (x : Z) : option Z := to_int8 (shape_float x).

(** Line 68: the shaping is applied to both axes when [squareInputs]. *)
Definition shape (squareInputs : bool) (x : Z) : option Z :=
  if squareInputs then square_input x else Some x.

(** Lines 82-83: arcade mixing into [int16_t speed[2]]. *)
Definition mix (drive turn : Z) : Z * Z :=
  (CInt.cast_int16 (drive + turn), CInt.cast_int16 (- drive + turn)).

(** Lines 85-91: the largest magnitude of the two mixed speeds. *)
Definition maxRawSpeed (speed : Z * Z) : Z :=
  fold_left
    (fun maxRaw s =>
       let absRawSpeed := CInt.cast_int16 (Z.abs s) in
       if absRawSpeed >? maxRaw then absRawSpeed else maxRaw)
    [fst speed; snd speed] 0.

(** Lines 93-94: the scale factor exists only under the guard. *)
Definition drive_scale (maxRaw : Z) : option float32 :=
  if maxRaw >? MAX_SPEED
  then Some (f32_div (f32_of_int maxRaw) (f32_of_int MAX_SPEED))
  else None.

(** Lines 95-96: [speed[k] /= scale] on an [int16_t] element. *)
Definition scale_down (s : Z) (scale : float32) : option Z :=
  to_int16 (f32_div (f32_of_int s) scale).

(** Lines 85-97: normalisation of the mixed pair. *)
Definition normalize (speed : Z * Z) : option (Z * Z) :=
  match drive_scale (maxRawSpeed speed) with
  | None => Some speed
  | Some scale =>
      l <- scale_down (fst speed) scale ;;
      r <- scale_down (snd speed) scale ;;
      Some (l, r)
  end.

(** Lines 63-97: the pair handed to the velocity filter (and from there
    to the four drive motors). *)
Definition drive (drive turn : Z) (squareInputs : bool) : option (Z * Z) :=
  d <- shape squareInputs drive ;;
  t <- shape squareInputs turn ;;
  normalize (mix d t).

(** ** Toggle buttons *)

(** The logical states returned by [toggleBtnGet].  The source names
    [BUTTON_PRESSED], [BUTTON_HELD] and [BUTTON_RELEASED]; the remaining
    state is the idle one.  The tracker itself ([togglebtn.c]) is a
    collaborator of this file: what it returns for a button during a
    cycle is an input of that cycle. *)
Inductive button_state : Type :=
  | BUTTON_IDLE
  | BUTTON_PRESSED
  | BUTTON_HELD
  | BUTTON_RELEASED.

Definition button_state_eqb (a b : button_state) : bool :=
  match a, b with
  | BUTTON_IDLE, BUTTON_IDLE
  | BUTTON_PRESSED, BUTTON_PRESSED
  | BUTTON_HELD, BUTTON_HELD
  | BUTTON_RELEASED, BUTTON_RELEASED => true
  | _, _ => false
  end.

(** ** The claw state machine *)

Record claw_state : Type := mkClaw {
  closeClaw : bool;
  i : Z
}.

(** Lines 137-138. *)
Definition claw_init : claw_state := mkClaw false 0.

(** Lines 178-180: the toggle on a press edge of group 8 down. *)
Definition claw_toggle (down8 : button_state) (st : claw_state) : claw_state :=
  if button_state_eqb down8 BUTTON_PRESSED
  then mkClaw (negb (closeClaw st)) (i st)
  else st.

(** Lines 182-194: the ramp.  Returns the next state and the value
    written to the claw motor.  [i] is an [int8_t]. *)
Definition claw_ramp (st : claw_state) : claw_state * Z :=
  if closeClaw st then
    if i st <? CLAW_OPEN_DURATION
    then (mkClaw (closeClaw st) (CInt.cast_int8 (i st + 1)), CLAW_SPEED)
    else (st, GRIP_STRENGTH)
  else if i st >? 0
    then (mkClaw (closeClaw st) (CInt.cast_int8 (i st - 1)), - CLAW_SPEED)
    else (st, 0).

(** Lines 171-195: one cycle of the claw code, given the logical states
    of group 8 left (claw open) and group 8 down (claw toggle). *)
Definition claw_step (left8 down8 : button_state) (st : claw_state)
  : claw_state * Z :=
  if button_state_eqb left8 BUTTON_HELD then
    (st, - CLAW_SPEED)
  else if button_state_eqb left8 BUTTON_RELEASED then
    (mkClaw false 0, 0)
  else
    claw_ramp (claw_toggle down8 st).

(** Successive cycles of the claw code: the final state and the values
    written to the claw motor, oldest first. *)
Fixpoint claw_run (ins : list (button_state * button_state))
  (st : claw_state) : claw_state * list Z :=
  match ins with
  | [] => (st, [])
  | (left8, down8) :: rest =>
      let '(st1, m) := claw_step left8 down8 st in
      let '(st2, ms) := claw_run rest st1 in
      (st2, m :: ms)
  end.

(** A cycle in which neither the override nor the toggle fires. *)
Definition steady (bs : button_state * button_state) : bool :=
  negb (button_state_eqb (fst bs) BUTTON_HELD)
  && negb (button_state_eqb (fst bs) BUTTON_RELEASED)
  && negb (button_state_eqb (snd bs) BUTTON_PRESSED).

(** A cycle in which the toggle fires and the override does not. *)
Definition toggling (bs : button_state * button_state) : bool :=
  negb (button_state_eqb (fst bs) BUTTON_HELD)
  && negb (button_state_eqb (fst bs) BUTTON_RELEASED)
  && button_state_eqb (snd bs) BUTTON_PRESSED.

(** ** One cycle of [operatorControl] *)

(** What the collaborators report during one cycle.  [toggleBtnGet] is
    read twice for group 8 left (lines 171 and 173) within the same cycle,
    before [toggleBtnUpdateAll]; both reads see the same logical state. *)
Record inputs : Type := mkInputs {
  driveAxis : Z;          (* joystickGetAnalog(JOYSTICK_SLOT, DRIVE_AXIS) *)
  turnAxis : Z;           (* joystickGetAnalog(JOYSTICK_SLOT, TURN_AXIS) *)
  armAxis : Z;            (* joystickGetAnalog(JOYSTICK_SLOT, ARM_AXIS) *)
  btn6U : bool;           (* joystickGetDigital(JOYSTICK_SLOT, 6, JOY_UP) *)
  btn6D : bool;           (* joystickGetDigital(JOYSTICK_SLOT, 6, JOY_DOWN) *)
  btn8L : button_state;   (* toggleBtnGet(JOYSTICK_SLOT, 8, JOY_LEFT) *)
  btn8R : button_state;   (* toggleBtnGet(JOYSTICK_SLOT, 8, JOY_RIGHT) *)
  btn8D : button_state    (* toggleBtnGet(JOYSTICK_SLOT, 8, JOY_DOWN) *)
}.

Record loop_state : Type := mkLoop {
  lowSpeed : bool;
  claw : claw_state
}.

(** Lines 129-143: the state on entry to the loop. *)
Definition operatorControl_init : loop_state := mkLoop false claw_init.

(** What one cycle writes: the pair handed to the velocity filter by
    [drive], the claw motor value and the two arm motor values. *)
Record commands : Type := mkCommands {
  driveCmd : option (Z * Z);
  clawCmd : Z;
  leftArmCmd : option Z;
  rightArmCmd : option Z
}.

(** Line 152. *)
Definition read_driveSpeed (inp : inputs) : Z :=
  CInt.cast_int8 (driveAxis inp).

(** Lines 154-158 (the [JOYSTICK_ARM] variant, which is the one compiled). *)
Definition read_turnSpeed (inp : inputs) : Z :=
  if btn6U inp || btn6D inp then 0 else CInt.cast_int8 (turnAxis inp).

(** Lines 163-167: [/] on C integers truncates toward zero. *)
Definition drive_call (low : bool) (driveSpeed turnSpeed : Z)
  : option (Z * Z) :=
  if low
  then drive (CInt.cast_int8 (Z.quot driveSpeed LOW_SPEED_DIVISOR))
             (CInt.cast_int8 (Z.quot turnSpeed LOW_SPEED_DIVISOR)) true
  else drive driveSpeed turnSpeed true.

(** Lines 199-204: [armSpeed *= fabs(armSpeed) * ARM_MAX_SPEED] evaluates
    its right operand and the product in [double]. *)
Definition arm_speed (inp : inputs) : float32 :=
  if btn6U inp then
    let armSpeed := f32_div (f32_of_int (armAxis inp)) (f32_of_int MAX_SPEED) in
    f32_of_f64
      (f64_mul (f64_of_f32 armSpeed)
               (f64_mul (fabs (f64_of_f32 armSpeed)) (f64_of_int ARM_MAX_SPEED)))
  else f32_of_int 0.

(** Lines 215-221: [(int) armSpeed / LOW_SPEED_DIVISOR] converts first and
    divides the integer. *)
Definition arm_commands (low : bool) (armSpeed : float32)
  : option Z * option Z :=
  if low
  then (l <- to_int armSpeed ;; Some (Z.quot l LOW_SPEED_DIVISOR),
        r <- to_int (fneg armSpeed) ;; Some (Z.quot r LOW_SPEED_DIVISOR))
  else (to_int armSpeed, to_int (fneg armSpeed)).

(** Lines 146-221: the body of the [while (true)] loop. *)
Definition cycle (st : loop_state) (inp : inputs) : loop_state * commands :=
  let low :=
    if button_state_eqb (btn8R inp) BUTTON_PRESSED
    then negb (lowSpeed st) else lowSpeed st in
  let dcmd := drive_call low (read_driveSpeed inp) (read_turnSpeed inp) in
  let '(cl, ccmd) := claw_step (btn8L inp) (btn8D inp) (claw st) in
  let '(la, ra) := arm_commands low (arm_speed inp) in
  (mkLoop low cl, mkCommands dcmd ccmd la ra).

(** The loop run over a finite prefix of inputs. *)
Fixpoint run (ins : list inputs) (st : loop_state) : loop_state :=
  match ins with
  | [] => st
  | inp :: rest => run rest (fst (cycle st inp))
  end.

(** ** Predicates used in the statements and in the exhaustive checks

    The speed values are finitely many, so the facts about the float
    arithmetic are established by evaluating the code on all of them. *)

(** Checking a predicate over an interval of integers. *)
Fixpoint forall_range (lo : Z) (n : nat) (P : Z -> bool) : bool :=
  match n with
  | O => true
  | S k => P lo && forall_range (lo + 1) k P
  end.

(** The shaping at one point [x]: it is defined at [x] and [- x], does
    not grow the magnitude, is odd, vanishes up to 11 and keeps the sign
    above; the [float] value before truncation is within [|x|] too. *)
Definition shape_point_ok (x : Z) : bool :=
  match square_input x, square_input (- x) with
  | Some y, Some y' =>
      (Z.abs y <=? Z.abs x)
      && (y' =? - y)
      && (if Z.abs x <=? 11 then y =? 0 else Z.sgn y =? Z.sgn x)
      && SFleb (SFabs (shape_float x)) (f32_of_int (Z.abs x))
  | _, _ => false
  end.

(** One operand of the scale step: within [maxRaw] in magnitude, it is
    divided to a value within [MAX_SPEED]. *)
Definition scale_point_ok (maxRaw s : Z) : bool :=
  if Z.abs s <=? maxRaw then
    match drive_scale maxRaw with
    | Some scale =>
        match scale_down s scale with
        | Some y => Z.abs y <=? MAX_SPEED
        | None => false
        end
    | None => false
    end
  else true.

(** A finite float above zero. *)
Definition finite_positive (x : spec_float) : bool :=
  match x with
  | S754_finite false _ _ => true
  | _ => false
  end.

(** The divisor computed for [maxRaw] is finite and greater than one. *)
Definition scale_ok (maxRaw : Z) : bool :=
  match drive_scale maxRaw with
  | Some scale => finite_positive scale && fltb f32_one scale
  | None => false
  end.

(** The bound on the claw progress counter. *)
Definition claw_inv (st : claw_state) : Prop :=
  0 <= i st <= CLAW_OPEN_DURATION.

(** [CLAW_OPEN_DURATION] as a number of cycles. *)
Definition duration : nat := Z.to_nat CLAW_OPEN_DURATION.

(** ** Exact counterparts of the float computations

    Integer formulas the float code is compared with, and the predicates
    evaluated over the finite input ranges to make the comparison. *)

(** The square curve in exact arithmetic: [x * |x| / MAX_SPEED], truncated
    toward zero. *)
Definition square_curve (x : Z) : Z := Z.quot (x * Z.abs x) MAX_SPEED.

Definition option_Z_eqb (a b : option Z) : bool :=
  match a, b with
  | Some x, Some y => x =? y
  | None, None => true
  | _, _ => false
  end.

(** Inputs of a cycle in which group 6 up is pressed and the arm axis
    reads [a]; the other readings do not enter the arm code. *)
Definition arm_inputs (a : Z) : inputs :=
  mkInputs 0 0 a true false BUTTON_IDLE BUTTON_IDLE BUTTON_IDLE.

(** At the reading [x]: the drive shaping is the exact curve, and the arm
    code writes the same value and its opposite in normal mode, and their
    halves in low-speed mode. *)
Definition curve_point_ok (x : Z) : bool :=
  let c := square_curve x in
  option_Z_eqb (square_input x) (Some c)
  && option_Z_eqb (fst (arm_commands false (arm_speed (arm_inputs x)))) (Some c)
  && option_Z_eqb (snd (arm_commands false (arm_speed (arm_inputs x))))
       (Some (- c))
  && option_Z_eqb (fst (arm_commands true (arm_speed (arm_inputs x))))
       (Some (Z.quot c LOW_SPEED_DIVISOR))
  && option_Z_eqb (snd (arm_commands true (arm_speed (arm_inputs x))))
       (Some (- Z.quot c LOW_SPEED_DIVISOR)).

(** The quotient the scale step aims at, in exact arithmetic. *)
Definition scaled_exact (maxRaw s : Z) : Z := Z.quot (s * MAX_SPEED) maxRaw.

(** At one operand [s] of the scale step for [maxRaw]: the result is the
    exact quotient, or one unit short of it in magnitude when [s] is the
    dominant operand; it is odd in [s]. *)
Definition scale_point_exact (maxRaw s : Z) : bool :=
  if Z.abs s <=? maxRaw then
    match drive_scale maxRaw with
    | Some scale =>
        match scale_down s scale, scale_down (- s) scale with
        | Some y, Some y' =>
            (y' =? - y)
            && (if Z.abs s <? maxRaw
                then y =? scaled_exact maxRaw s
                else (y =? scaled_exact maxRaw s)
                     || (y =? scaled_exact maxRaw s - Z.sgn s))
        | _, _ => false
        end
    | None => false
    end
  else true.

(** ** Counting over runs *)

(** The cycles of a run in which group 8 right reads [BUTTON_PRESSED]. *)
Definition presses8R (ins : list inputs) : nat :=
  length (filter (fun inp => button_state_eqb (btn8R inp) BUTTON_PRESSED) ins).

(** A cycle in which the manual-open override does not fire. *)
Definition no_override (bs : button_state * button_state) : bool :=
  negb (button_state_eqb (fst bs) BUTTON_HELD)
  && negb (button_state_eqb (fst bs) BUTTON_RELEASED).

(** How often the value [v] was written in a trace of motor values. *)
Definition writes (v : Z) (trace : list Z) : Z :=
  Z.of_nat (count_occ Z.eq_dec trace v).

(** The analog readings of a cycle are speed values. *)
Definition readings_in_range (inp : inputs) : Prop :=
  - MAX_SPEED <= driveAxis inp <= MAX_SPEED
  /\ - MAX_SPEED <= turnAxis inp <= MAX_SPEED
  /\ - MAX_SPEED <= armAxis inp <= MAX_SPEED.

(** * Properties *)

(** ** Intervals and narrowing casts *)

Lemma forall_range_spec (P : Z -> bool) (n : nat) :
  forall lo, forall_range lo n P = true ->
  forall z, lo <= z < lo + Z.of_nat n -> P z = true.
Proof.
  induction n as [|k IH]; intros lo H z Hz.
  - simpl in Hz. lia.
  - simpl in H. apply andb_true_iff in H as [Hlo Hrest].
    destruct (Z.eq_dec z lo) as [->|Hne]; [exact Hlo|].
    apply (IH (lo + 1) Hrest). lia.
Qed.

Lemma wrap_small (w z : Z) :
  0 < w -> - 2 ^ (w - 1) <= z < 2 ^ (w - 1) -> CInt.wrap w z = z.
Proof.
  intros Hw Hz. unfold CInt.wrap.
  assert (Hp : 2 ^ w = 2 * 2 ^ (w - 1)).
  { replace w with (Z.succ (w - 1)) at 1 by lia. apply Z.pow_succ_r. lia. }
  cbv zeta. rewrite Hp.
  destruct (Z_lt_le_dec z 0) as [Hneg|Hpos].
  - rewrite <- (Z.mod_add z 1 (2 * 2 ^ (w - 1))) by lia.
    rewrite Z.mod_small by lia.
    destruct (Z.ltb_spec (z + 1 * (2 * 2 ^ (w - 1))) (2 ^ (w - 1))); lia.
  - rewrite Z.mod_small by lia.
    destruct (Z.ltb_spec z (2 ^ (w - 1))); lia.
Qed.

Lemma cast_int8_id (z : Z) : CInt.in_int8 z -> CInt.cast_int8 z = z.
Proof.
  intros Hz. apply wrap_small; [lia|]. unfold CInt.in_int8 in Hz.
  change (2 ^ (8 - 1)) with 128. lia.
Qed.

Lemma cast_int16_id (z : Z) : CInt.in_int16 z -> CInt.cast_int16 z = z.
Proof.
  intros Hz. apply wrap_small; [lia|]. unfold CInt.in_int16 in Hz.
  change (2 ^ (16 - 1)) with 32768. lia.
Qed.

Lemma to_int8_range (x : spec_float) (z : Z) :
  to_int8 x = Some z -> CInt.in_int8 z.
Proof.
  unfold to_int8, bind. destruct (trunc x) as [y|]; [|discriminate].
  destruct (CInt.in_int8b y) eqn:Hb; [|discriminate].
  intros [= <-]. unfold CInt.in_int8b in Hb.
  apply andb_true_iff in Hb as [H1 H2].
  apply Z.leb_le in H1, H2. split; assumption.
Qed.

(** ** Mixing and the largest magnitude *)

Lemma mix_exact (d t : Z) :
  CInt.in_int8 d -> CInt.in_int8 t -> mix d t = (d + t, - d + t).
Proof.
  unfold CInt.in_int8. intros Hd Ht. unfold mix.
  rewrite !cast_int16_id by (unfold CInt.in_int16; lia). reflexivity.
Qed.

Lemma maxRawSpeed_max (a b : Z) :
  CInt.in_int16 a -> CInt.in_int16 b -> -32768 < a -> -32768 < b ->
  maxRawSpeed (a, b) = Z.max (Z.abs a) (Z.abs b).
Proof.
  unfold CInt.in_int16. intros Ha Hb Ha' Hb'. unfold maxRawSpeed. simpl.
  rewrite !cast_int16_id by (unfold CInt.in_int16; lia).
  destruct (Z.gtb_spec (Z.abs a) 0);
    match goal with |- context [?x >? ?y] => destruct (Z.gtb_spec x y) end;
    lia.
Qed.

(** ** The shaping curve, checked over the whole speed range *)

Lemma shape_table : forall_range (-127) 255 shape_point_ok = true.
Proof. vm_compute. reflexivity. Qed.

Lemma shape_point (x : Z) :
  - MAX_SPEED <= x <= MAX_SPEED -> shape_point_ok x = true.
Proof.
  unfold MAX_SPEED. intros Hx.
  apply (forall_range_spec _ _ _ shape_table). lia.
Qed.

Lemma square_input_defined (x : Z) :
  - MAX_SPEED <= x <= MAX_SPEED ->
  exists y, square_input x = Some y /\ Z.abs y <= Z.abs x.
Proof.
  intros Hx. pose proof (shape_point x Hx) as H. unfold shape_point_ok in H.
  destruct (square_input x) as [y|]; [|discriminate].
  destruct (square_input (- x)) as [y'|]; [|discriminate].
  exists y. split; [reflexivity|].
  rewrite !andb_true_iff in H. destruct H as [[[H _] _] _].
  apply Z.leb_le in H. exact H.
Qed.

(** ** The scale step, checked over every reachable operand *)

Lemma scale_table :
  forall_range 128 129
    (fun maxRaw => forall_range (-256) 513 (scale_point_ok maxRaw)) = true.
Proof. vm_compute. reflexivity. Qed.

Lemma scale_down_bounded (maxRaw s : Z) (scale : float32) :
  maxRaw <= 256 -> Z.abs s <= maxRaw ->
  drive_scale maxRaw = Some scale ->
  exists y, scale_down s scale = Some y /\ Z.abs y <= MAX_SPEED.
Proof.
  intros Hmax Hs Hsc.
  assert (Hgt : MAX_SPEED < maxRaw).
  { unfold drive_scale in Hsc.
    destruct (Z.gtb_spec maxRaw MAX_SPEED); [lia|discriminate]. }
  unfold MAX_SPEED in Hgt.
  pose proof (forall_range_spec _ _ _ scale_table maxRaw ltac:(lia)) as Hrow.
  cbv beta in Hrow.
  pose proof (forall_range_spec _ _ _ Hrow s ltac:(lia)) as Hpt.
  unfold scale_point_ok in Hpt.
  destruct (Z.leb_spec (Z.abs s) maxRaw); [|lia].
  rewrite Hsc in Hpt.
  destruct (scale_down s scale) as [y|]; [|discriminate].
  exists y. split; [reflexivity|]. apply Z.leb_le. exact Hpt.
Qed.

Lemma normalize_bounded (a b : Z) :
  Z.abs a <= 256 -> Z.abs b <= 256 ->
  exists l r, normalize (a, b) = Some (l, r)
              /\ Z.max (Z.abs l) (Z.abs r) <= MAX_SPEED.
Proof.
  intros Ha Hb. unfold normalize.
  rewrite maxRawSpeed_max by (unfold CInt.in_int16; lia).
  destruct (drive_scale (Z.max (Z.abs a) (Z.abs b))) as [scale|] eqn:Hsc.
  - set (mx := Z.max (Z.abs a) (Z.abs b)) in *.
    assert (Hmx : mx <= 256) by lia.
    assert (Hax : Z.abs a <= mx) by lia.
    assert (Hbx : Z.abs b <= mx) by lia.
    destruct (scale_down_bounded mx a scale Hmx Hax Hsc) as (l & Hl & Hlb).
    destruct (scale_down_bounded mx b scale Hmx Hbx Hsc) as (r & Hr & Hrb).
    exists l, r. cbn [fst snd]. rewrite Hl, Hr. cbn [bind].
    split; [reflexivity|lia].
  - exists a, b. split; [reflexivity|].
    unfold drive_scale in Hsc.
    destruct (Z.gtb_spec (Z.max (Z.abs a) (Z.abs b)) MAX_SPEED);
      [discriminate|lia].
Qed.

Lemma normalize_noop (a b : Z) :
  CInt.in_int16 a -> CInt.in_int16 b ->
  Z.abs a <= MAX_SPEED -> Z.abs b <= MAX_SPEED ->
  normalize (a, b) = Some (a, b).
Proof.
  unfold MAX_SPEED. intros Ha Hb Hla Hlb. unfold normalize.
  rewrite maxRawSpeed_max by (unfold CInt.in_int16 in *; lia).
  unfold drive_scale, MAX_SPEED.
  destruct (Z.gtb_spec (Z.max (Z.abs a) (Z.abs b)) 127); [lia|reflexivity].
Qed.

(** ** The divisor of the scale step *)

Lemma scale_ok_table : forall_range 128 (Z.to_nat 32640) scale_ok = true.
Proof. vm_compute. reflexivity. Qed.

Lemma drive_scale_guard (maxRaw : Z) (scale : float32) :
  drive_scale maxRaw = Some scale -> MAX_SPEED < maxRaw.
Proof.
  unfold drive_scale.
  destruct (Z.gtb_spec maxRaw MAX_SPEED); [intros _; lia|discriminate].
Qed.

(** ** The drive routine: results *)

(** C1. Whatever pair of [int8_t] values [drive] receives, it hands a pair
    to the velocity filter whose larger magnitude is at most [MAX_SPEED].
    With [squareInputs] set the inputs are speed values (at least
    [-MAX_SPEED]); at -128 the shaped value does not fit an [int8_t]. *)
Theorem drive_normalized_bounded (d t : Z) (sq : bool) :
  CInt.in_int8 d -> CInt.in_int8 t ->
  (sq = true -> - MAX_SPEED <= d /\ - MAX_SPEED <= t) ->
  exists l r,
    drive d t sq = Some (l, r) /\ Z.max (Z.abs l) (Z.abs r) <= MAX_SPEED.
Proof.
  unfold CInt.in_int8. intros Hd Ht Hsq.
  assert (Hshape : forall x, -128 <= x <= 127 ->
            (sq = true -> - MAX_SPEED <= x) ->
            exists y, shape sq x = Some y /\ -128 <= y <= 127).
  { intros x Hx Hlow. destruct sq; simpl.
    - specialize (Hlow eq_refl). unfold MAX_SPEED in Hlow.
      destruct (square_input_defined x) as (y & Hy & Hb);
        [unfold MAX_SPEED; lia|].
      exists y. split; [exact Hy|lia].
    - exists x. split; [reflexivity|lia]. }
  destruct (Hshape d Hd) as (d' & Hd' & Hdr); [intros E; apply Hsq, E|].
  destruct (Hshape t Ht) as (t' & Ht' & Htr); [intros E; apply Hsq, E|].
  unfold drive. rewrite Hd', Ht'. cbn [bind].
  rewrite mix_exact by (unfold CInt.in_int8; lia).
  apply normalize_bounded; lia.
Qed.

Lemma drive_normalized_bounded_witness :
  exists l r,
    drive 127 (-100) true = Some (l, r)
    /\ Z.max (Z.abs l) (Z.abs r) <= MAX_SPEED.
Proof.
  apply (drive_normalized_bounded 127 (-100) true).
  - unfold CInt.in_int8. lia.
  - unfold CInt.in_int8. lia.
  - intros _. unfold MAX_SPEED. lia.
Defined.

(** C6. When both mixed values of the (shaped) inputs lie within
    [MAX_SPEED], normalisation leaves them alone: [drive] hands exactly
    [forward + turn] and [- forward + turn] to the filter. *)
Theorem normalization_passthrough (d t d' t' : Z) (sq : bool) :
  CInt.in_int8 d -> CInt.in_int8 t ->
  shape sq d = Some d' -> shape sq t = Some t' ->
  Z.abs (d' + t') <= MAX_SPEED -> Z.abs (- d' + t') <= MAX_SPEED ->
  normalize (mix d' t') = Some (d' + t', - d' + t')
  /\ drive_scale (maxRawSpeed (mix d' t')) = None
  /\ drive d t sq = Some (d' + t', - d' + t').
Proof.
  intros Hd Ht Hsd Hst Hl Hr.
  assert (Hin : forall x y, CInt.in_int8 x -> shape sq x = Some y ->
                            CInt.in_int8 y).
  { intros x y Hx. destruct sq; simpl.
    - apply to_int8_range.
    - intros [= <-]. exact Hx. }
  pose proof (Hin d d' Hd Hsd) as Hd'. pose proof (Hin t t' Ht Hst) as Ht'.
  assert (Hn : normalize (mix d' t') = Some (d' + t', - d' + t')).
  { rewrite mix_exact by assumption.
    unfold CInt.in_int8 in Hd', Ht'.
    apply normalize_noop; unfold CInt.in_int16; lia. }
  split; [exact Hn|]. split.
  - unfold normalize in Hn.
    destruct (drive_scale (maxRawSpeed (mix d' t'))) as [scale|] eqn:Hsc;
      [|reflexivity].
    apply drive_scale_guard in Hsc.
    rewrite mix_exact in Hsc by assumption.
    unfold CInt.in_int8 in Hd', Ht'.
    rewrite maxRawSpeed_max in Hsc by (unfold CInt.in_int16; lia). lia.
  - unfold drive. rewrite Hsd, Hst. cbn [bind]. exact Hn.
Qed.

Lemma normalization_passthrough_witness :
  normalize (mix 78 19) = Some (78 + 19, - 78 + 19)
  /\ drive_scale (maxRawSpeed (mix 78 19)) = None
  /\ drive 100 50 true = Some (78 + 19, - 78 + 19).
Proof.
  apply (normalization_passthrough 100 50 78 19 true).
  - unfold CInt.in_int8. lia.
  - unfold CInt.in_int8. lia.
  - vm_compute. reflexivity.
  - vm_compute. reflexivity.
  - unfold MAX_SPEED. lia.
  - unfold MAX_SPEED. lia.
Defined.

(** C8. Zero inputs give zero outputs without any division; and whenever
    the scale is computed at all, the guard has passed and the divisor is
    a finite float greater than one, so no division by zero can occur. *)
Theorem drive_zero_and_division_guard :
  (forall sq, drive 0 0 sq = Some (0, 0)
              /\ shape sq 0 = Some 0
              /\ drive_scale (maxRawSpeed (mix 0 0)) = None)
  /\ (forall maxRaw, maxRaw <= MAX_SPEED -> drive_scale maxRaw = None)
  /\ (forall maxRaw scale,
        CInt.in_int16 maxRaw -> drive_scale maxRaw = Some scale ->
        MAX_SPEED < maxRaw
        /\ finite_positive scale = true
        /\ fltb f32_one scale = true).
Proof.
  split; [|split].
  - intros [|]; repeat split; vm_compute; reflexivity.
  - intros maxRaw H. unfold drive_scale.
    destruct (Z.gtb_spec maxRaw MAX_SPEED); [lia|reflexivity].
  - intros maxRaw scale Hr Hsc.
    pose proof (drive_scale_guard _ _ Hsc) as Hgt.
    split; [exact Hgt|].
    unfold CInt.in_int16 in Hr. unfold MAX_SPEED in Hgt.
    pose proof (forall_range_spec _ _ _ scale_ok_table maxRaw ltac:(lia))
      as Hok.
    unfold scale_ok in Hok. rewrite Hsc in Hok.
    apply andb_true_iff in Hok. exact Hok.
Qed.

Lemma drive_zero_and_division_guard_witness :
  drive_scale 100 = None
  /\ (MAX_SPEED < 256
      /\ finite_positive (f32_div (f32_of_int 256) (f32_of_int MAX_SPEED))
         = true
      /\ fltb f32_one (f32_div (f32_of_int 256) (f32_of_int MAX_SPEED))
         = true).
Proof.
  destruct drive_zero_and_division_guard as (_ & Hnone & Hsome).
  split.
  - apply (Hnone 100). unfold MAX_SPEED. lia.
  - apply (Hsome 256).
    + unfold CInt.in_int16. lia.
    + vm_compute. reflexivity.
Defined.

(** ** The shaping curve: results *)

(** C4, as the spec words it, fails on the code: no speed value is
    shaped to a larger magnitude. *)
Lemma shaping_never_expands :
  ~ (exists x y,
       Z.abs x <= MAX_SPEED /\ square_input x = Some y /\ Z.abs x < Z.abs y).
Proof.
  intros (x & y & Hx & Hy & Hgt).
  destruct (square_input_defined x) as (y0 & Hy0 & Hle); [lia|].
  rewrite Hy in Hy0. injection Hy0 as <-. lia.
Qed.

(** C4 (amended). Over the whole speed range the shaping is defined and
    contracts magnitudes, [|f(x)| <= |x|], both for the [float] value
    the curve computes and for the integer stored back. *)
Theorem shaping_contracts (x : Z) :
  - MAX_SPEED <= x <= MAX_SPEED ->
  exists y,
    square_input x = Some y
    /\ Z.abs y <= Z.abs x
    /\ SFleb (SFabs (shape_float x)) (f32_of_int (Z.abs x)) = true.
Proof.
  intros Hx. pose proof (shape_point x Hx) as H. unfold shape_point_ok in H.
  destruct (square_input x) as [y|]; [|discriminate].
  destruct (square_input (- x)) as [y'|]; [|discriminate].
  rewrite !andb_true_iff in H. destruct H as [[[H1 _] _] H4].
  exists y. repeat split; [apply Z.leb_le; exact H1|exact H4].
Qed.

Lemma shaping_contracts_witness :
  exists y,
    square_input 64 = Some y
    /\ Z.abs y <= Z.abs 64
    /\ SFleb (SFabs (shape_float 64)) (f32_of_int (Z.abs 64)) = true.
Proof.
  apply (shaping_contracts 64). unfold MAX_SPEED. lia.
Defined.

(** C5, as the spec words it, fails on the code: the sign is lost where
    the curve's value truncates to zero, for instance at 1. *)
Lemma shaping_sign_lost :
  ~ (square_input 0 = Some 0
     /\ square_input MAX_SPEED = Some MAX_SPEED
     /\ forall x, - MAX_SPEED <= x <= MAX_SPEED ->
          exists y, square_input x = Some y
                    /\ square_input (- x) = Some (- y)
                    /\ Z.sgn y = Z.sgn x).
Proof.
  intros (_ & _ & H).
  destruct (H 1) as (y & Hy & _ & Hs); [unfold MAX_SPEED; lia|].
  assert (E : square_input 1 = Some 0) by (vm_compute; reflexivity).
  rewrite E in Hy. injection Hy as <-. discriminate Hs.
Qed.

(** C5 (amended). [f(0) = 0], [f(MAX_SPEED) = MAX_SPEED], and for every
    [x] in the speed range [f(-x) = -f(x)]; [f(x)] is 0 when [|x| <= 11]
    and has the sign of [x] when [|x| >= 12], so it never has the
    opposite sign. *)
Theorem shaping_laws :
  square_input 0 = Some 0
  /\ square_input MAX_SPEED = Some MAX_SPEED
  /\ forall x, - MAX_SPEED <= x <= MAX_SPEED ->
       exists y, square_input x = Some y
                 /\ square_input (- x) = Some (- y)
                 /\ (Z.abs x <= 11 -> y = 0)
                 /\ (11 < Z.abs x -> Z.sgn y = Z.sgn x)
                 /\ 0 <= y * x.
Proof.
  split; [vm_compute; reflexivity|]. split; [vm_compute; reflexivity|].
  intros x Hx. pose proof (shape_point x Hx) as H. unfold shape_point_ok in H.
  destruct (square_input x) as [y|]; [|discriminate].
  destruct (square_input (- x)) as [y'|]; [|discriminate].
  rewrite !andb_true_iff in H. destruct H as [[[_ H2] H3] _].
  apply Z.eqb_eq in H2. subst y'. exists y.
  split; [reflexivity|]. split; [reflexivity|].
  destruct (Z.leb_spec (Z.abs x) 11) as [Hs|Hs].
  - apply Z.eqb_eq in H3. subst y. repeat split; lia.
  - apply Z.eqb_eq in H3. repeat split; [lia|intros _; exact H3|].
    destruct y, x; simpl in H3; try discriminate; lia.
Qed.

Lemma shaping_laws_witness :
  exists y, square_input (-100) = Some y
            /\ square_input (- (-100)) = Some (- y)
            /\ (Z.abs (-100) <= 11 -> y = 0)
            /\ (11 < Z.abs (-100) -> Z.sgn y = Z.sgn (-100))
            /\ 0 <= y * (-100).
Proof.
  destruct shaping_laws as (_ & _ & H).
  apply (H (-100)). unfold MAX_SPEED. lia.
Defined.

(** ** The claw state machine: stepping lemmas *)

Lemma claw_ramp_closing (c : Z) :
  0 <= c < CLAW_OPEN_DURATION ->
  claw_ramp (mkClaw true c) = (mkClaw true (c + 1), CLAW_SPEED).
Proof.
  unfold CLAW_OPEN_DURATION. intros Hc. unfold claw_ramp. cbn [closeClaw i].
  unfold CLAW_OPEN_DURATION.
  destruct (Z.ltb_spec c 30); [|lia].
  rewrite cast_int8_id by (unfold CInt.in_int8; lia). reflexivity.
Qed.

Lemma claw_ramp_grip (c : Z) :
  CLAW_OPEN_DURATION <= c ->
  claw_ramp (mkClaw true c) = (mkClaw true c, GRIP_STRENGTH).
Proof.
  intros Hc. unfold claw_ramp. cbn [closeClaw i].
  destruct (Z.ltb_spec c CLAW_OPEN_DURATION); [lia|reflexivity].
Qed.

Lemma claw_ramp_opening (c : Z) :
  0 < c <= CLAW_OPEN_DURATION ->
  claw_ramp (mkClaw false c) = (mkClaw false (c - 1), - CLAW_SPEED).
Proof.
  unfold CLAW_OPEN_DURATION. intros Hc. unfold claw_ramp. cbn [closeClaw i].
  destruct (Z.gtb_spec c 0); [|lia].
  rewrite cast_int8_id by (unfold CInt.in_int8; lia). reflexivity.
Qed.

Lemma claw_ramp_idle (c : Z) :
  c <= 0 -> claw_ramp (mkClaw false c) = (mkClaw false c, 0).
Proof.
  intros Hc. unfold claw_ramp. cbn [closeClaw i].
  destruct (Z.gtb_spec c 0); [lia|reflexivity].
Qed.

Lemma claw_ramp_inv (st : claw_state) :
  claw_inv st -> claw_inv (fst (claw_ramp st)).
Proof.
  destruct st as [[|] c]; unfold claw_inv; cbn [i]; intros Hc.
  - destruct (Z_lt_le_dec c CLAW_OPEN_DURATION).
    + rewrite claw_ramp_closing by lia. cbn [fst i]. lia.
    + rewrite claw_ramp_grip by lia. cbn [fst i]. lia.
  - destruct (Z_lt_le_dec 0 c).
    + rewrite claw_ramp_opening by lia. cbn [fst i]. lia.
    + rewrite claw_ramp_idle by lia. cbn [fst i]. lia.
Qed.

Lemma claw_toggle_i (down8 : button_state) (st : claw_state) :
  i (claw_toggle down8 st) = i st.
Proof.
  unfold claw_toggle. destruct (button_state_eqb down8 BUTTON_PRESSED);
    reflexivity.
Qed.

Lemma claw_step_inv (left8 down8 : button_state) (st : claw_state) :
  claw_inv st -> claw_inv (fst (claw_step left8 down8 st)).
Proof.
  intros Hst. unfold claw_step.
  destruct (button_state_eqb left8 BUTTON_HELD); [exact Hst|].
  destruct (button_state_eqb left8 BUTTON_RELEASED).
  - unfold claw_inv, CLAW_OPEN_DURATION. cbn. lia.
  - apply claw_ramp_inv. unfold claw_inv. rewrite claw_toggle_i. exact Hst.
Qed.

Lemma claw_run_inv (ins : list (button_state * button_state)) :
  forall st, claw_inv st -> claw_inv (fst (claw_run ins st)).
Proof.
  induction ins as [|[l d] rest IH]; intros st Hst; [exact Hst|].
  cbn [claw_run].
  pose proof (claw_step_inv l d st Hst) as H1.
  destruct (claw_step l d st) as [st1 m]. cbn [fst] in H1.
  specialize (IH st1 H1). destruct (claw_run rest st1) as [st2 ms].
  exact IH.
Qed.

Lemma cycle_claw (st : loop_state) (inp : inputs) :
  claw (fst (cycle st inp)) = fst (claw_step (btn8L inp) (btn8D inp) (claw st))
  /\ clawCmd (snd (cycle st inp))
     = snd (claw_step (btn8L inp) (btn8D inp) (claw st)).
Proof.
  unfold cycle.
  destruct (claw_step (btn8L inp) (btn8D inp) (claw st)) as [cl m].
  destruct (arm_commands _ _) as [la ra]. split; reflexivity.
Qed.

Lemma run_inv (ins : list inputs) :
  forall st, claw_inv (claw st) -> claw_inv (claw (run ins st)).
Proof.
  induction ins as [|inp rest IH]; intros st Hst; [exact Hst|].
  cbn [run]. apply IH.
  rewrite (proj1 (cycle_claw st inp)). apply claw_step_inv, Hst.
Qed.

Lemma steady_step (l d : button_state) (st : claw_state) :
  steady (l, d) = true -> claw_step l d st = claw_ramp st.
Proof.
  unfold steady, claw_step, claw_toggle. cbn [fst snd].
  destruct l, d; cbn; intros H; try discriminate H; reflexivity.
Qed.

Lemma toggling_step (l d : button_state) (st : claw_state) :
  toggling (l, d) = true ->
  claw_step l d st = claw_ramp (mkClaw (negb (closeClaw st)) (i st)).
Proof.
  unfold toggling, claw_step, claw_toggle. cbn [fst snd].
  destruct l, d; cbn; intros H; try discriminate H; reflexivity.
Qed.

(** Holding [closeClaw] set from counter [c]: closing speed for the
    cycles that remain of the ramp, grip speed afterwards. *)
Lemma closing_run (ins : list (button_state * button_state)) :
  forall c, 0 <= c <= CLAW_OPEN_DURATION ->
  forallb steady ins = true ->
  claw_run ins (mkClaw true c)
  = (mkClaw true (Z.min CLAW_OPEN_DURATION (c + Z.of_nat (length ins))),
     repeat CLAW_SPEED (Nat.min (length ins) (Z.to_nat (CLAW_OPEN_DURATION - c)))
     ++ repeat GRIP_STRENGTH (length ins - Z.to_nat (CLAW_OPEN_DURATION - c))).
Proof.
  induction ins as [|b rest IH]; intros c Hc Hs.
  - cbn. f_equal. f_equal. lia.
  - cbn [forallb] in Hs. apply andb_true_iff in Hs as [Hb Hrest].
    destruct b as [l d]. cbn [claw_run length].
    rewrite (steady_step l d _ Hb).
    destruct (Z_lt_le_dec c CLAW_OPEN_DURATION) as [Hlt|Hge].
    + rewrite claw_ramp_closing by lia.
      rewrite (IH (c + 1)) by (assumption || lia).
      replace (Z.to_nat (CLAW_OPEN_DURATION - c))
        with (S (Z.to_nat (CLAW_OPEN_DURATION - (c + 1)))) by lia.
      cbn [Nat.min Nat.sub repeat app]. f_equal. f_equal. lia.
    + rewrite claw_ramp_grip by lia.
      rewrite (IH c) by assumption.
      replace (Z.to_nat (CLAW_OPEN_DURATION - c)) with O by lia.
      rewrite !Nat.min_0_r, !Nat.sub_0_r. cbn [repeat app].
      f_equal. f_equal. lia.
Qed.

(** Holding [closeClaw] clear from counter [c]: opening speed for as many
    cycles as the counter holds, idle afterwards. *)
Lemma opening_run (ins : list (button_state * button_state)) :
  forall c, 0 <= c <= CLAW_OPEN_DURATION ->
  forallb steady ins = true ->
  claw_run ins (mkClaw false c)
  = (mkClaw false (Z.max 0 (c - Z.of_nat (length ins))),
     repeat (- CLAW_SPEED) (Nat.min (length ins) (Z.to_nat c))
     ++ repeat 0 (length ins - Z.to_nat c)).
Proof.
  induction ins as [|b rest IH]; intros c Hc Hs.
  - cbn. f_equal. f_equal. lia.
  - cbn [forallb] in Hs. apply andb_true_iff in Hs as [Hb Hrest].
    destruct b as [l d]. cbn [claw_run length].
    rewrite (steady_step l d _ Hb).
    destruct (Z_lt_le_dec 0 c) as [Hlt|Hge].
    + rewrite claw_ramp_opening by lia.
      rewrite (IH (c - 1)) by (assumption || lia).
      replace (Z.to_nat c) with (S (Z.to_nat (c - 1))) by lia.
      cbn [Nat.min Nat.sub repeat app]. f_equal. f_equal. lia.
    + rewrite claw_ramp_idle by lia.
      rewrite (IH c) by assumption.
      replace (Z.to_nat c) with O by lia.
      rewrite !Nat.min_0_r, !Nat.sub_0_r. cbn [repeat app].
      f_equal. f_equal. lia.
Qed.

(** ** The claw state machine: results *)

(** C2, as the spec words it, fails on the code: a cycle in which the
    claw-open button reads [BUTTON_HELD] does not reset the counter or
    the [closeClaw] flag. *)
Lemma held_cycle_does_not_reset :
  ~ (forall down8 st,
       claw_inv st ->
       claw_step BUTTON_HELD down8 st = (mkClaw false 0, - CLAW_SPEED)).
Proof.
  intros H.
  specialize (H BUTTON_IDLE (mkClaw true 30)).
  assert (Hinv : claw_inv (mkClaw true 30))
    by (unfold claw_inv, CLAW_OPEN_DURATION; cbn; lia).
  specialize (H Hinv). discriminate H.
Qed.

(** C2 (amended). While the claw-open button reads [BUTTON_HELD] the claw
    motor is driven at [- CLAW_SPEED] (the opening direction) and the
    counter and [closeClaw] are left as they are; on the cycle it reads
    [BUTTON_RELEASED] the motor is stopped and the counter and flag are
    reset to 0 and false.  In both cases the toggle button is ignored and
    the ramp does not run. *)
Theorem manual_open_override (down8 : button_state) (st : claw_state) :
  claw_step BUTTON_HELD down8 st = (st, - CLAW_SPEED)
  /\ claw_step BUTTON_RELEASED down8 st = (mkClaw false 0, 0)
  /\ - CLAW_SPEED = 60
  /\ forall ls inp,
       claw ls = st -> btn8D inp = down8 ->
       (btn8L inp = BUTTON_HELD ->
        claw (fst (cycle ls inp)) = st
        /\ clawCmd (snd (cycle ls inp)) = - CLAW_SPEED)
       /\ (btn8L inp = BUTTON_RELEASED ->
           claw (fst (cycle ls inp)) = mkClaw false 0
           /\ clawCmd (snd (cycle ls inp)) = 0).
Proof.
  split; [reflexivity|]. split; [reflexivity|]. split; [reflexivity|].
  intros ls inp Hst Hd.
  destruct (cycle_claw ls inp) as [Hc Hm]. rewrite Hc, Hm, Hst.
  split; intros ->; split; reflexivity.
Qed.

Lemma manual_open_override_witness :
  claw (fst (cycle (mkLoop true (mkClaw true 17))
                   (mkInputs 0 0 0 false false
                             BUTTON_HELD BUTTON_IDLE BUTTON_PRESSED)))
  = mkClaw true 17
  /\ clawCmd (snd (cycle (mkLoop true (mkClaw true 17))
                         (mkInputs 0 0 0 false false
                                   BUTTON_HELD BUTTON_IDLE BUTTON_PRESSED)))
     = - CLAW_SPEED.
Proof.
  destruct (manual_open_override BUTTON_PRESSED (mkClaw true 17))
    as (_ & _ & _ & H).
  destruct (H (mkLoop true (mkClaw true 17))
              (mkInputs 0 0 0 false false
                        BUTTON_HELD BUTTON_IDLE BUTTON_PRESSED))
    as [Hheld _].
  - reflexivity.
  - reflexivity.
  - apply Hheld. reflexivity.
Defined.

(** C3. From the initial state, a toggle press followed by steady cycles
    drives the claw at [CLAW_SPEED] for exactly the first
    [CLAW_OPEN_DURATION] cycles, counting up, and at [GRIP_STRENGTH] from
    the next cycle on; from the fully closed state, a toggle press
    followed by steady cycles drives it at [- CLAW_SPEED] for exactly
    [CLAW_OPEN_DURATION] cycles, counting down, and then writes 0. *)
Theorem claw_close_open_timing
  (press1 press2 : button_state * button_state)
  (hold1 hold2 : list (button_state * button_state)) :
  toggling press1 = true -> forallb steady hold1 = true ->
  toggling press2 = true -> forallb steady hold2 = true ->
  let n1 := S (length hold1) in
  let n2 := S (length hold2) in
  claw_run (press1 :: hold1) claw_init
  = (mkClaw true (Z.min CLAW_OPEN_DURATION (Z.of_nat n1)),
     repeat CLAW_SPEED (Nat.min n1 duration)
     ++ repeat GRIP_STRENGTH (n1 - duration))
  /\ claw_run (press2 :: hold2) (mkClaw true CLAW_OPEN_DURATION)
     = (mkClaw false (Z.max 0 (CLAW_OPEN_DURATION - Z.of_nat n2)),
        repeat (- CLAW_SPEED) (Nat.min n2 duration)
        ++ repeat 0 (n2 - duration))
  /\ Z.abs GRIP_STRENGTH < Z.abs CLAW_SPEED.
Proof.
  intros Hp1 Hs1 Hp2 Hs2 n1 n2. subst n1 n2.
  change duration with (S 29). split; [|split; [|reflexivity]].
  - destruct press1 as [l d]. cbn [claw_run].
    rewrite (toggling_step l d _ Hp1). cbn [claw_init closeClaw i negb].
    rewrite claw_ramp_closing by (unfold CLAW_OPEN_DURATION; lia).
    rewrite closing_run by (assumption || unfold CLAW_OPEN_DURATION; lia).
    change (Z.to_nat (CLAW_OPEN_DURATION - (0 + 1))) with 29%nat.
    cbn [Nat.min Nat.sub repeat app]. f_equal. f_equal. lia.
  - destruct press2 as [l d]. cbn [claw_run].
    rewrite (toggling_step l d _ Hp2). cbn [closeClaw i negb].
    rewrite claw_ramp_opening by (unfold CLAW_OPEN_DURATION; lia).
    rewrite opening_run by (assumption || unfold CLAW_OPEN_DURATION; lia).
    change (Z.to_nat (CLAW_OPEN_DURATION - 1)) with 29%nat.
    cbn [Nat.min Nat.sub repeat app]. f_equal. f_equal. lia.
Qed.

Lemma claw_close_open_timing_witness :
  claw_run ((BUTTON_IDLE, BUTTON_PRESSED) :: (BUTTON_IDLE, BUTTON_HELD)
            :: repeat (BUTTON_IDLE, BUTTON_IDLE) 31) claw_init
  = (mkClaw true (Z.min CLAW_OPEN_DURATION 33),
     repeat CLAW_SPEED (Nat.min 33 duration)
     ++ repeat GRIP_STRENGTH (33 - duration))
  /\ claw_run ((BUTTON_PRESSED, BUTTON_PRESSED)
               :: repeat (BUTTON_IDLE, BUTTON_RELEASED) 32)
       (mkClaw true CLAW_OPEN_DURATION)
     = (mkClaw false (Z.max 0 (CLAW_OPEN_DURATION - 33)),
        repeat (- CLAW_SPEED) (Nat.min 33 duration)
        ++ repeat 0 (33 - duration))
  /\ Z.abs GRIP_STRENGTH < Z.abs CLAW_SPEED.
Proof.
  apply (claw_close_open_timing
           (BUTTON_IDLE, BUTTON_PRESSED) (BUTTON_PRESSED, BUTTON_PRESSED)
           ((BUTTON_IDLE, BUTTON_HELD) :: repeat (BUTTON_IDLE, BUTTON_IDLE) 31)
           (repeat (BUTTON_IDLE, BUTTON_RELEASED) 32)); reflexivity.
Defined.

(** C7. The counter starts at 0 and every cycle of the claw code, whatever
    the buttons read, keeps it within [[0, CLAW_OPEN_DURATION]]; hence it
    is within those bounds in every state the loop reaches. *)
Theorem claw_counter_bounded :
  i claw_init = 0
  /\ claw_inv (claw operatorControl_init)
  /\ (forall left8 down8 st,
        claw_inv st -> claw_inv (fst (claw_step left8 down8 st)))
  /\ (forall ins, claw_inv (fst (claw_run ins claw_init)))
  /\ (forall ins, claw_inv (claw (run ins operatorControl_init))).
Proof.
  assert (H0 : claw_inv claw_init)
    by (unfold claw_inv, CLAW_OPEN_DURATION; cbn; lia).
  split; [reflexivity|]. split; [exact H0|]. split; [|split].
  - apply claw_step_inv.
  - intros ins. apply claw_run_inv, H0.
  - intros ins. apply run_inv, H0.
Qed.

Lemma claw_counter_bounded_witness :
  claw_inv (fst (claw_step BUTTON_IDLE BUTTON_PRESSED (mkClaw false 29))).
Proof.
  destruct claw_counter_bounded as (_ & _ & Hstep & _).
  apply Hstep. unfold claw_inv, CLAW_OPEN_DURATION. cbn. lia.
Defined.

(** C10. On the cycle in which the claw-open button reads
    [BUTTON_PRESSED] the override is not taken: the toggle is honoured
    and the ramp advances.  The forced opening command appears on the
    following cycle, when the button reads [BUTTON_HELD]. *)
Theorem press_cycle_runs_normal_logic :
  (forall down8 st,
     claw_step BUTTON_PRESSED down8 st = claw_ramp (claw_toggle down8 st))
  /\ (forall st,
        claw_step BUTTON_PRESSED BUTTON_PRESSED st
        = claw_ramp (mkClaw (negb (closeClaw st)) (i st)))
  /\ claw_step BUTTON_PRESSED BUTTON_PRESSED claw_init
     = (mkClaw true 1, CLAW_SPEED)
  /\ (forall d1 d2 st,
        claw_run [(BUTTON_PRESSED, d1); (BUTTON_HELD, d2)] st
        = (fst (claw_ramp (claw_toggle d1 st)),
           [snd (claw_ramp (claw_toggle d1 st)); - CLAW_SPEED])).
Proof.
  split; [reflexivity|]. split; [reflexivity|]. split; [reflexivity|].
  intros d1 d2 st. cbn [claw_run].
  change (claw_step BUTTON_PRESSED d1 st)
    with (claw_ramp (claw_toggle d1 st)).
  destruct (claw_ramp (claw_toggle d1 st)) as [st1 m1]. reflexivity.
Qed.

(** ** Turn-axis gating *)

(** C9. In the compiled ([JOYSTICK_ARM]) variant the turn speed given to
    [drive] is 0 whenever group 6 up or group 6 down is pressed, and is
    the turn-axis reading otherwise; the arm itself moves only under
    group 6 up, so group 6 down alone zeroes the turn and leaves both arm
    motors at 0. *)
Theorem turn_zeroed_while_arm_input (st : loop_state) (inp : inputs) :
  (btn6U inp || btn6D inp = true -> read_turnSpeed inp = 0)
  /\ (btn6U inp || btn6D inp = false ->
      CInt.in_int8 (turnAxis inp) -> read_turnSpeed inp = turnAxis inp)
  /\ driveCmd (snd (cycle st inp))
     = drive_call (lowSpeed (fst (cycle st inp)))
                  (read_driveSpeed inp) (read_turnSpeed inp)
  /\ (btn6U inp = false ->
      leftArmCmd (snd (cycle st inp)) = Some 0
      /\ rightArmCmd (snd (cycle st inp)) = Some 0).
Proof.
  split; [|split; [|split]].
  - intros H. unfold read_turnSpeed. rewrite H. reflexivity.
  - intros H Hr. unfold read_turnSpeed. rewrite H. apply cast_int8_id, Hr.
  - unfold cycle.
    destruct (claw_step (btn8L inp) (btn8D inp) (claw st)) as [cl m].
    destruct (arm_commands _ _) as [la ra]. reflexivity.
  - intros Hu. unfold cycle.
    destruct (claw_step (btn8L inp) (btn8D inp) (claw st)) as [cl m].
    unfold arm_speed. rewrite Hu.
    destruct (if button_state_eqb (btn8R inp) BUTTON_PRESSED
              then negb (lowSpeed st) else lowSpeed st);
      split; reflexivity.
Qed.

Lemma turn_zeroed_while_arm_input_witness :
  read_turnSpeed
    (mkInputs 90 (-45) 127 false true BUTTON_IDLE BUTTON_IDLE BUTTON_IDLE)
  = 0
  /\ leftArmCmd
       (snd (cycle operatorControl_init
                   (mkInputs 90 (-45) 127 false true
                             BUTTON_IDLE BUTTON_IDLE BUTTON_IDLE)))
     = Some 0
  /\ rightArmCmd
       (snd (cycle operatorControl_init
                   (mkInputs 90 (-45) 127 false true
                             BUTTON_IDLE BUTTON_IDLE BUTTON_IDLE)))
     = Some 0.
Proof.
  destruct (turn_zeroed_while_arm_input operatorControl_init
              (mkInputs 90 (-45) 127 false true
                        BUTTON_IDLE BUTTON_IDLE BUTTON_IDLE))
    as (Hz & _ & _ & Harm).
  split.
  - apply Hz. reflexivity.
  - apply Harm. reflexivity.
Defined.


(** * Further properties of the drive routine *)

(** ** The float code against exact arithmetic *)

Lemma option_Z_eqb_eq (a b : option Z) : option_Z_eqb a b = true -> a = b.
Proof.
  destruct a as [x|], b as [y|]; cbn; intros H; try discriminate H.
  - apply Z.eqb_eq in H. subst. reflexivity.
  - reflexivity.
Qed.

Lemma curve_table : forall_range (-127) 255 curve_point_ok = true.
Proof. vm_compute. reflexivity. Qed.

Lemma curve_point (x : Z) :
  - MAX_SPEED <= x <= MAX_SPEED -> curve_point_ok x = true.
Proof.
  unfold MAX_SPEED. intros Hx.
  apply (forall_range_spec _ _ _ curve_table). lia.
Qed.

Lemma square_input_curve (x : Z) :
  - MAX_SPEED <= x <= MAX_SPEED -> square_input x = Some (square_curve x).
Proof.
  intros Hx. pose proof (curve_point x Hx) as H. unfold curve_point_ok in H.
  cbv zeta in H. rewrite !andb_true_iff in H.
  destruct H as [[[[H _] _] _] _]. apply option_Z_eqb_eq, H.
Qed.

Lemma square_curve_mono (x y : Z) :
  x <= y -> square_curve x <= square_curve y.
Proof.
  intros Hxy. unfold square_curve.
  apply Z.quot_le_mono; [unfold MAX_SPEED; lia|].
  destruct (Z_lt_le_dec x 0), (Z_lt_le_dec y 0);
    rewrite ?(Z.abs_neq x), ?(Z.abs_neq y), ?(Z.abs_eq x), ?(Z.abs_eq y)
      by lia; nia.
Qed.

Lemma square_curve_opp (x : Z) : square_curve (- x) = - square_curve x.
Proof.
  unfold square_curve. rewrite Z.abs_opp.
  rewrite Z.mul_opp_l. apply Z.quot_opp_l. unfold MAX_SPEED. lia.
Qed.

Lemma square_curve_bound (x b : Z) :
  0 <= b -> Z.abs x <= b -> Z.abs (square_curve x) <= square_curve b.
Proof.
  intros Hb Hx.
  pose proof (square_curve_mono x b ltac:(lia)) as H1.
  pose proof (square_curve_mono (- b) x ltac:(lia)) as H2.
  rewrite square_curve_opp in H2. lia.
Qed.

(** X1. Over the speed range the float shaping of [drive] computes exactly
    the integer [x * |x| / MAX_SPEED] truncated toward zero: no rounding
    error of the [float] and [double] steps reaches the stored value. *)
Theorem shaping_is_exact_curve (x : Z) (sq : bool) :
  - MAX_SPEED <= x <= MAX_SPEED ->
  shape sq x = Some (if sq then Z.quot (x * Z.abs x) MAX_SPEED else x).
Proof.
  intros Hx. destruct sq; [|reflexivity].
  cbn [shape]. apply square_input_curve, Hx.
Qed.

Lemma shaping_is_exact_curve_witness :
  shape true (-90) = Some (Z.quot (-90 * Z.abs (-90)) MAX_SPEED).
Proof.
  apply (shaping_is_exact_curve (-90) true). unfold MAX_SPEED. lia.
Defined.

(** X2. Among the [int8_t] values the shaping is undefined at -128 and
    nowhere else: there the curve's value, -129, does not fit the
    [int8_t] it is stored in. *)
Theorem shaping_undefined_only_at_min (x : Z) :
  CInt.in_int8 x ->
  (square_input x = None <-> x = -128)
  /\ trunc (shape_float (-128)) = Some (-129).
Proof.
  unfold CInt.in_int8. intros Hx.
  split; [|vm_compute; reflexivity]. split.
  - intros Hn. destruct (Z.eq_dec x (-128)) as [E|E]; [exact E|].
    rewrite square_input_curve in Hn by (unfold MAX_SPEED; lia).
    discriminate Hn.
  - intros ->. vm_compute. reflexivity.
Qed.

Lemma shaping_undefined_only_at_min_witness :
  (square_input (-128) = None <-> -128 = -128)
  /\ trunc (shape_float (-128)) = Some (-129).
Proof.
  apply (shaping_undefined_only_at_min (-128)). unfold CInt.in_int8. lia.
Defined.

(** X3. The shaping is monotone over the speed range: a larger stick
    deflection never gives a smaller shaped value. *)
Theorem shaping_monotone (x y : Z) :
  - MAX_SPEED <= x -> x <= y -> y <= MAX_SPEED ->
  exists fx fy,
    square_input x = Some fx /\ square_input y = Some fy /\ fx <= fy.
Proof.
  intros Hx Hxy Hy.
  exists (square_curve x), (square_curve y).
  rewrite !square_input_curve by lia.
  repeat split. apply square_curve_mono, Hxy.
Qed.

Lemma shaping_monotone_witness :
  exists fx fy,
    square_input (-30) = Some fx /\ square_input 45 = Some fy /\ fx <= fy.
Proof.
  apply (shaping_monotone (-30) 45); unfold MAX_SPEED; lia.
Defined.

(** ** The scale step against exact arithmetic *)

Lemma scale_exact_table :
  forall_range 128 129
    (fun maxRaw => forall_range (-256) 513 (scale_point_exact maxRaw)) = true.
Proof. vm_compute. reflexivity. Qed.

Lemma scale_down_exact (maxRaw s : Z) (scale : float32) :
  maxRaw <= 256 -> Z.abs s <= maxRaw ->
  drive_scale maxRaw = Some scale ->
  exists y,
    scale_down s scale = Some y
    /\ scale_down (- s) scale = Some (- y)
    /\ (Z.abs s < maxRaw -> y = scaled_exact maxRaw s)
    /\ (y = scaled_exact maxRaw s \/ y = scaled_exact maxRaw s - Z.sgn s).
Proof.
  intros Hmax Hs Hsc.
  pose proof (drive_scale_guard _ _ Hsc) as Hgt. unfold MAX_SPEED in Hgt.
  pose proof (forall_range_spec _ _ _ scale_exact_table maxRaw ltac:(lia))
    as Hrow. cbv beta in Hrow.
  pose proof (forall_range_spec _ _ _ Hrow s ltac:(lia)) as Hpt.
  unfold scale_point_exact in Hpt.
  destruct (Z.leb_spec (Z.abs s) maxRaw); [|lia].
  rewrite Hsc in Hpt.
  destruct (scale_down s scale) as [y|]; [|discriminate].
  destruct (scale_down (- s) scale) as [y'|]; [|discriminate].
  apply andb_true_iff in Hpt as [Hopp Hval].
  apply Z.eqb_eq in Hopp. subst y'. exists y.
  split; [reflexivity|]. split; [reflexivity|].
  destruct (Z.ltb_spec (Z.abs s) maxRaw) as [Hlt|Hge].
  - apply Z.eqb_eq in Hval. split; [intros _; exact Hval|left; exact Hval].
  - split; [lia|]. apply orb_true_iff in Hval as [E|E];
      apply Z.eqb_eq in E; [left|right]; exact E.
Qed.

Lemma scaled_exact_dominant (maxRaw s : Z) :
  0 < maxRaw -> Z.abs s = maxRaw ->
  scaled_exact maxRaw s = Z.sgn s * MAX_SPEED.
Proof.
  intros Hpos Hs. unfold scaled_exact.
  destruct (Z_lt_le_dec s 0) as [Hneg|Hnn].
  - replace s with (- maxRaw) by lia.
    rewrite Z.mul_opp_l, Z.quot_opp_l by lia.
    rewrite (Z.mul_comm maxRaw), Z.quot_mul by lia.
    rewrite Z.sgn_neg by lia. lia.
  - replace s with maxRaw by lia.
    rewrite (Z.mul_comm maxRaw), Z.quot_mul by lia.
    rewrite Z.sgn_pos by lia. lia.
Qed.

Lemma normalize_scaled (a b : Z) (scale : float32) :
  Z.abs a <= 256 -> Z.abs b <= 256 ->
  drive_scale (Z.max (Z.abs a) (Z.abs b)) = Some scale ->
  forall l r,
    scale_down a scale = Some l -> scale_down b scale = Some r ->
    normalize (a, b) = Some (l, r).
Proof.
  intros Ha Hb Hsc l r Hl Hr. unfold normalize.
  rewrite maxRawSpeed_max by (unfold CInt.in_int16; lia).
  rewrite Hsc. cbn [fst snd]. rewrite Hl, Hr. reflexivity.
Qed.

Lemma normalize_unscaled (a b : Z) :
  Z.abs a <= 256 -> Z.abs b <= 256 ->
  drive_scale (Z.max (Z.abs a) (Z.abs b)) = None ->
  normalize (a, b) = Some (a, b).
Proof.
  intros Ha Hb Hsc. unfold normalize.
  rewrite maxRawSpeed_max by (unfold CInt.in_int16; lia).
  rewrite Hsc. reflexivity.
Qed.

(** X4. When the scale step runs, each wheel value is the exact quotient
    [s * MAX_SPEED / maxRawSpeed] truncated toward zero, except that the
    dominant wheel, which exact arithmetic would put at [MAX_SPEED], is
    written as 127 or, through float rounding, 126, with its sign kept;
    both cases occur. *)
Theorem normalize_against_exact :
  (forall a b,
     Z.abs a <= 256 -> Z.abs b <= 256 ->
     MAX_SPEED < Z.max (Z.abs a) (Z.abs b) ->
     let mx := Z.max (Z.abs a) (Z.abs b) in
     exists l r,
       normalize (a, b) = Some (l, r)
       /\ (Z.abs a < mx -> l = Z.quot (a * MAX_SPEED) mx)
       /\ (Z.abs b < mx -> r = Z.quot (b * MAX_SPEED) mx)
       /\ (Z.abs a = mx -> l = Z.sgn a * 127 \/ l = Z.sgn a * 126)
       /\ (Z.abs b = mx -> r = Z.sgn b * 127 \/ r = Z.sgn b * 126))
  /\ normalize (200, 0) = Some (127, 0)
  /\ normalize (143, -57) = Some (126, -50).
Proof.
  split; [|split; vm_compute; reflexivity].
  intros a b Ha Hb Hgt mx. subst mx.
  set (mx := Z.max (Z.abs a) (Z.abs b)) in *.
  assert (Hsc : exists scale, drive_scale mx = Some scale).
  { unfold drive_scale. destruct (Z.gtb_spec mx MAX_SPEED); [|lia].
    eexists. reflexivity. }
  destruct Hsc as [scale Hsc].
  assert (Hmx : mx <= 256) by lia.
  assert (Hpos : 0 < mx) by (unfold MAX_SPEED in Hgt; lia).
  destruct (scale_down_exact mx a scale Hmx ltac:(lia) Hsc)
    as (l & Hl & _ & Hl1 & Hl2).
  destruct (scale_down_exact mx b scale Hmx ltac:(lia) Hsc)
    as (r & Hr & _ & Hr1 & Hr2).
  exists l, r.
  split; [apply (normalize_scaled a b scale); assumption|].
  split; [exact Hl1|]. split; [exact Hr1|]. split.
  - intros E. rewrite (scaled_exact_dominant mx a Hpos E) in Hl2.
    unfold MAX_SPEED in Hl2. destruct Hl2; [left|right]; lia.
  - intros E. rewrite (scaled_exact_dominant mx b Hpos E) in Hr2.
    unfold MAX_SPEED in Hr2. destruct Hr2; [left|right]; lia.
Qed.

Lemma normalize_against_exact_witness :
  exists l r,
    normalize (143, -57) = Some (l, r)
    /\ (Z.abs 143 < Z.max (Z.abs 143) (Z.abs (-57)) ->
        l = Z.quot (143 * MAX_SPEED) (Z.max (Z.abs 143) (Z.abs (-57))))
    /\ (Z.abs (-57) < Z.max (Z.abs 143) (Z.abs (-57)) ->
        r = Z.quot (-57 * MAX_SPEED) (Z.max (Z.abs 143) (Z.abs (-57))))
    /\ (Z.abs 143 = Z.max (Z.abs 143) (Z.abs (-57)) ->
        l = Z.sgn 143 * 127 \/ l = Z.sgn 143 * 126)
    /\ (Z.abs (-57) = Z.max (Z.abs 143) (Z.abs (-57)) ->
        r = Z.sgn (-57) * 127 \/ r = Z.sgn (-57) * 126).
Proof.
  destruct normalize_against_exact as (H & _ & _).
  apply (H 143 (-57)); unfold MAX_SPEED; lia.
Defined.

(** ** Symmetries of the drive routine *)

Lemma shape_opp (sq : bool) (x y : Z) :
  - MAX_SPEED <= x <= MAX_SPEED ->
  shape sq x = Some y -> shape sq (- x) = Some (- y).
Proof.
  intros Hx. destruct sq; cbn [shape].
  - rewrite !square_input_curve by lia. rewrite square_curve_opp.
    intros [= <-]. reflexivity.
  - intros [= <-]. reflexivity.
Qed.

Lemma shape_in_range (sq : bool) (x : Z) :
  - MAX_SPEED <= x <= MAX_SPEED ->
  exists y, shape sq x = Some y /\ Z.abs y <= Z.abs x.
Proof.
  intros Hx. destruct sq; cbn [shape].
  - apply square_input_defined, Hx.
  - exists x. split; [reflexivity|lia].
Qed.

Lemma normalize_defined (a b : Z) :
  Z.abs a <= 256 -> Z.abs b <= 256 ->
  exists l r,
    normalize (a, b) = Some (l, r)
    /\ normalize (b, a) = Some (r, l)
    /\ normalize (- a, - b) = Some (- l, - r).
Proof.
  intros Ha Hb.
  set (mx := Z.max (Z.abs a) (Z.abs b)).
  assert (Hswap : Z.max (Z.abs b) (Z.abs a) = mx) by (subst mx; lia).
  assert (Hopp : Z.max (Z.abs (- a)) (Z.abs (- b)) = mx)
    by (subst mx; rewrite !Z.abs_opp; reflexivity).
  destruct (drive_scale mx) as [scale|] eqn:Hsc.
  - assert (Hmx : mx <= 256) by (subst mx; lia).
    destruct (scale_down_exact mx a scale Hmx ltac:(subst mx; lia) Hsc)
      as (l & Hl & Hl' & _).
    destruct (scale_down_exact mx b scale Hmx ltac:(subst mx; lia) Hsc)
      as (r & Hr & Hr' & _).
    exists l, r. split; [|split].
    + apply (normalize_scaled a b scale); assumption.
    + apply (normalize_scaled b a scale); try assumption.
      rewrite Hswap. exact Hsc.
    + apply (normalize_scaled (- a) (- b) scale);
        rewrite ?Z.abs_opp; try assumption.
  - exists a, b. split; [|split].
    + apply normalize_unscaled; assumption.
    + apply normalize_unscaled; try assumption. rewrite Hswap. exact Hsc.
    + apply normalize_unscaled; rewrite ?Z.abs_opp; assumption.
Qed.

(** X5. Reversing the forward axis exchanges the two sides: the value
    computed for the left wheels becomes the one for the right wheels and
    conversely, shaping and normalisation included. *)
Theorem drive_reverse_exchanges_sides (d t : Z) (sq : bool) :
  - MAX_SPEED <= d <= MAX_SPEED -> - MAX_SPEED <= t <= MAX_SPEED ->
  exists l r,
    drive d t sq = Some (l, r) /\ drive (- d) t sq = Some (r, l).
Proof.
  intros Hd Ht.
  destruct (shape_in_range sq d Hd) as (d' & Hsd & Hbd).
  destruct (shape_in_range sq t Ht) as (t' & Hst & Hbt).
  pose proof (shape_opp sq d d' Hd Hsd) as Hsd'.
  unfold MAX_SPEED in Hd, Ht.
  destruct (normalize_defined (d' + t') (- d' + t')) as (l & r & Hn & Hs & _);
    [lia|lia|].
  exists l, r. unfold drive. rewrite Hsd, Hsd', Hst. cbn [bind].
  rewrite !mix_exact by (unfold CInt.in_int8; lia).
  split; [exact Hn|].
  replace (- - d' + t') with (d' + t') by lia. exact Hs.
Qed.

Lemma drive_reverse_exchanges_sides_witness :
  exists l r,
    drive 120 (-90) true = Some (l, r)
    /\ drive (- 120) (-90) true = Some (r, l).
Proof.
  apply (drive_reverse_exchanges_sides 120 (-90) true);
    unfold MAX_SPEED; lia.
Defined.

(** X6. [drive] is odd: reversing both axes negates both wheel values
    exactly, so the float rounding of the scale step never makes the two
    directions of motion differ. *)
Theorem drive_is_odd (d t : Z) (sq : bool) :
  - MAX_SPEED <= d <= MAX_SPEED -> - MAX_SPEED <= t <= MAX_SPEED ->
  exists l r,
    drive d t sq = Some (l, r) /\ drive (- d) (- t) sq = Some (- l, - r).
Proof.
  intros Hd Ht.
  destruct (shape_in_range sq d Hd) as (d' & Hsd & Hbd).
  destruct (shape_in_range sq t Ht) as (t' & Hst & Hbt).
  pose proof (shape_opp sq d d' Hd Hsd) as Hsd'.
  pose proof (shape_opp sq t t' Ht Hst) as Hst'.
  unfold MAX_SPEED in Hd, Ht.
  destruct (normalize_defined (d' + t') (- d' + t')) as (l & r & Hn & _ & Ho);
    [lia|lia|].
  exists l, r. unfold drive. rewrite Hsd, Hsd', Hst, Hst'. cbn [bind].
  rewrite !mix_exact by (unfold CInt.in_int8; lia).
  split; [exact Hn|].
  replace (- d' + - t') with (- (d' + t')) by lia.
  replace (- - d' + - t') with (- (- d' + t')) by lia. exact Ho.
Qed.

Lemma drive_is_odd_witness :
  exists l r,
    drive 100 43 false = Some (l, r)
    /\ drive (- 100) (- 43) false = Some (- l, - r).
Proof.
  apply (drive_is_odd 100 43 false); unfold MAX_SPEED; lia.
Defined.

(** ** Single-axis and low-speed driving *)

Lemma square_curve_max : square_curve MAX_SPEED = MAX_SPEED.
Proof. reflexivity. Qed.

Lemma square_curve_in_range (x : Z) :
  - MAX_SPEED <= x <= MAX_SPEED -> Z.abs (square_curve x) <= MAX_SPEED.
Proof.
  intros Hx.
  pose proof (square_curve_bound x MAX_SPEED) as H.
  rewrite square_curve_max in H. apply H; unfold MAX_SPEED in *; lia.
Qed.

(** X7. With shaping on, a pure forward input gives equal and opposite
    wheel values and a pure turn input gives equal ones, both being the
    shaped input itself: no scaling interferes. *)
Theorem drive_single_axis (x : Z) :
  - MAX_SPEED <= x <= MAX_SPEED ->
  let c := Z.quot (x * Z.abs x) MAX_SPEED in
  drive x 0 true = Some (c, - c) /\ drive 0 x true = Some (c, c).
Proof.
  intros Hx c. subst c. fold (square_curve x).
  pose proof (square_curve_in_range x Hx) as Hc.
  assert (H0 : square_input 0 = Some 0) by (vm_compute; reflexivity).
  unfold drive. cbn [shape]. rewrite (square_input_curve x Hx), H0.
  cbn [bind]. unfold MAX_SPEED in Hc.
  rewrite !mix_exact by (unfold CInt.in_int8; lia).
  split.
  - replace (square_curve x + 0) with (square_curve x) by lia.
    replace (- square_curve x + 0) with (- square_curve x) by lia.
    apply normalize_noop; unfold CInt.in_int16, MAX_SPEED; lia.
  - replace (0 + square_curve x) with (square_curve x) by lia.
    replace (- 0 + square_curve x) with (square_curve x) by lia.
    apply normalize_noop; unfold CInt.in_int16, MAX_SPEED; lia.
Qed.

Lemma drive_single_axis_witness :
  drive (-77) 0 true
  = Some (Z.quot (-77 * Z.abs (-77)) MAX_SPEED,
          - Z.quot (-77 * Z.abs (-77)) MAX_SPEED)
  /\ drive 0 (-77) true
     = Some (Z.quot (-77 * Z.abs (-77)) MAX_SPEED,
             Z.quot (-77 * Z.abs (-77)) MAX_SPEED).
Proof.
  apply (drive_single_axis (-77)). unfold MAX_SPEED. lia.
Defined.

Lemma low_speed_drive (d t : Z) :
  CInt.in_int8 d -> CInt.in_int8 t ->
  let cd := square_curve (Z.quot d LOW_SPEED_DIVISOR) in
  let ct := square_curve (Z.quot t LOW_SPEED_DIVISOR) in
  drive_call true d t = Some (cd + ct, - cd + ct)
  /\ Z.abs (cd + ct) <= 64 /\ Z.abs (- cd + ct) <= 64.
Proof.
  intros Hd Ht cd ct. unfold CInt.in_int8 in Hd, Ht.
  unfold LOW_SPEED_DIVISOR in cd, ct.
  assert (Hqd : Z.abs (Z.quot d 2) <= 64)
    by (Z.quot_rem_to_equations; lia).
  assert (Hqt : Z.abs (Z.quot t 2) <= 64)
    by (Z.quot_rem_to_equations; lia).
  assert (H64 : square_curve 64 = 32) by reflexivity.
  pose proof (square_curve_bound (Z.quot d 2) 64 ltac:(lia) Hqd) as Hcd.
  pose proof (square_curve_bound (Z.quot t 2) 64 ltac:(lia) Hqt) as Hct.
  rewrite H64 in Hcd, Hct. fold cd in Hcd. fold ct in Hct.
  split; [|lia].
  unfold drive_call, LOW_SPEED_DIVISOR.
  rewrite !cast_int8_id by (unfold CInt.in_int8; lia).
  unfold drive. cbn [shape].
  rewrite !square_input_curve by (unfold MAX_SPEED; lia).
  cbn [bind]. fold cd ct.
  rewrite mix_exact by (unfold CInt.in_int8; lia).
  apply normalize_noop; unfold CInt.in_int16, MAX_SPEED; lia.
Qed.

(** X8. In low-speed mode [drive] is defined for every pair of [int8_t]
    readings, -128 included; both wheel values are the plain sums of the
    shaped half inputs, at most 64 in magnitude, and the scale step never
    runs. *)
Theorem low_speed_drive_unscaled (d t : Z) :
  CInt.in_int8 d -> CInt.in_int8 t ->
  let cd := Z.quot (Z.quot d 2 * Z.abs (Z.quot d 2)) MAX_SPEED in
  let ct := Z.quot (Z.quot t 2 * Z.abs (Z.quot t 2)) MAX_SPEED in
  drive_call true d t = Some (cd + ct, - cd + ct)
  /\ Z.abs (cd + ct) <= 64 /\ Z.abs (- cd + ct) <= 64
  /\ drive_scale (maxRawSpeed (mix cd ct)) = None.
Proof.
  intros Hd Ht cd ct.
  destruct (low_speed_drive d t Hd Ht) as (Hcall & Hl & Hr).
  change (square_curve (Z.quot d LOW_SPEED_DIVISOR)) with cd in Hcall, Hl, Hr.
  change (square_curve (Z.quot t LOW_SPEED_DIVISOR)) with ct in Hcall, Hl, Hr.
  split; [exact Hcall|]. split; [exact Hl|]. split; [exact Hr|].
  assert (Hcd : Z.abs cd <= 64 /\ Z.abs ct <= 64) by lia.
  rewrite mix_exact by (unfold CInt.in_int8; lia).
  rewrite maxRawSpeed_max by (unfold CInt.in_int16; lia).
  unfold drive_scale, MAX_SPEED.
  destruct (Z.gtb_spec (Z.max (Z.abs (cd + ct)) (Z.abs (- cd + ct))) 127);
    [lia|reflexivity].
Qed.

Lemma low_speed_drive_unscaled_witness :
  drive_call true (-128) 127
  = Some (Z.quot (Z.quot (-128) 2 * Z.abs (Z.quot (-128) 2)) MAX_SPEED
          + Z.quot (Z.quot 127 2 * Z.abs (Z.quot 127 2)) MAX_SPEED,
          - Z.quot (Z.quot (-128) 2 * Z.abs (Z.quot (-128) 2)) MAX_SPEED
          + Z.quot (Z.quot 127 2 * Z.abs (Z.quot 127 2)) MAX_SPEED).
Proof.
  apply (low_speed_drive_unscaled (-128) 127); unfold CInt.in_int8; lia.
Defined.

(** X15. The largest magnitude of the two mixed values is the sum of the
    magnitudes of the two inputs of the mixer, so the scale step runs
    exactly when [|forward| + |turn|] exceeds [MAX_SPEED]. *)
Theorem scaling_runs_iff_sum_exceeds (d t : Z) :
  CInt.in_int8 d -> CInt.in_int8 t ->
  maxRawSpeed (mix d t) = Z.abs d + Z.abs t
  /\ (drive_scale (maxRawSpeed (mix d t)) = None
      <-> Z.abs d + Z.abs t <= MAX_SPEED).
Proof.
  intros Hd Ht.
  assert (Hmax : maxRawSpeed (mix d t) = Z.abs d + Z.abs t).
  { rewrite mix_exact by assumption. unfold CInt.in_int8 in Hd, Ht.
    rewrite maxRawSpeed_max by (unfold CInt.in_int16; lia). lia. }
  split; [exact Hmax|]. rewrite Hmax. unfold drive_scale.
  destruct (Z.gtb_spec (Z.abs d + Z.abs t) MAX_SPEED) as [Hgt|Hle]; split;
    intros Hx; try reflexivity; try discriminate Hx; lia.
Qed.

Lemma scaling_runs_iff_sum_exceeds_witness :
  maxRawSpeed (mix (-128) 127) = Z.abs (-128) + Z.abs 127
  /\ (drive_scale (maxRawSpeed (mix (-128) 127)) = None
      <-> Z.abs (-128) + Z.abs 127 <= MAX_SPEED).
Proof.
  apply (scaling_runs_iff_sum_exceeds (-128) 127); unfold CInt.in_int8; lia.
Defined.

(** ** The arm and the whole cycle *)

Lemma cycle_unfold (st : loop_state) (inp : inputs) :
  let low := xorb (lowSpeed st)
                  (button_state_eqb (btn8R inp) BUTTON_PRESSED) in
  let cs := claw_step (btn8L inp) (btn8D inp) (claw st) in
  let ac := arm_commands low (arm_speed inp) in
  cycle st inp
  = (mkLoop low (fst cs),
     mkCommands
       (drive_call low (read_driveSpeed inp) (read_turnSpeed inp))
       (snd cs) (fst ac) (snd ac)).
Proof.
  cbv zeta. unfold cycle.
  replace (if button_state_eqb (btn8R inp) BUTTON_PRESSED
           then negb (lowSpeed st) else lowSpeed st)
    with (xorb (lowSpeed st) (button_state_eqb (btn8R inp) BUTTON_PRESSED))
    by (destruct (button_state_eqb (btn8R inp) BUTTON_PRESSED), (lowSpeed st);
        reflexivity).
  destruct (claw_step (btn8L inp) (btn8D inp) (claw st)) as [cl m].
  destruct (arm_commands _ _) as [la ra]. reflexivity.
Qed.

Lemma cycle_low (st : loop_state) (inp : inputs) :
  lowSpeed (fst (cycle st inp))
  = xorb (lowSpeed st) (button_state_eqb (btn8R inp) BUTTON_PRESSED).
Proof. rewrite cycle_unfold. reflexivity. Qed.

Lemma cycle_commands (st : loop_state) (inp : inputs) :
  let low := lowSpeed (fst (cycle st inp)) in
  driveCmd (snd (cycle st inp))
  = drive_call low (read_driveSpeed inp) (read_turnSpeed inp)
  /\ leftArmCmd (snd (cycle st inp))
     = fst (arm_commands low (arm_speed inp))
  /\ rightArmCmd (snd (cycle st inp))
     = snd (arm_commands low (arm_speed inp)).
Proof.
  cbv zeta. rewrite cycle_low, cycle_unfold.
  cbn [snd driveCmd leftArmCmd rightArmCmd].
  split; [|split]; reflexivity.
Qed.

Lemma arm_speed_pressed (inp : inputs) :
  btn6U inp = true -> arm_speed inp = arm_speed (arm_inputs (armAxis inp)).
Proof. intros H. unfold arm_speed. rewrite H. reflexivity. Qed.

Lemma arm_commands_curve (low : bool) (inp : inputs) :
  - MAX_SPEED <= armAxis inp <= MAX_SPEED ->
  let c := if btn6U inp then square_curve (armAxis inp) else 0 in
  let v := if low then Z.quot c LOW_SPEED_DIVISOR else c in
  arm_commands low (arm_speed inp) = (Some v, Some (- v)).
Proof.
  intros Ha c v. subst v c. destruct (btn6U inp) eqn:Hu.
  - rewrite (arm_speed_pressed inp Hu).
    pose proof (curve_point (armAxis inp) Ha) as H.
    unfold curve_point_ok in H. cbv zeta in H.
    rewrite !andb_true_iff in H. destruct H as [[[[_ H1] H2] H3] H4].
    apply option_Z_eqb_eq in H1, H2, H3, H4.
    destruct low; apply injective_projections; cbn [fst snd]; assumption.
  - unfold arm_speed. rewrite Hu. destruct low; reflexivity.
Qed.

(** X9. The arm code applies the same square curve as the drive code:
    with group 6 up pressed the left arm motor gets
    [a * |a| / MAX_SPEED] (halved, truncating, in low-speed mode) and the
    right arm motor exactly the opposite value, within [ARM_MAX_SPEED]. *)
Theorem arm_commands_mirror (st : loop_state) (inp : inputs) :
  btn6U inp = true ->
  - MAX_SPEED <= armAxis inp <= MAX_SPEED ->
  let c := Z.quot (armAxis inp * Z.abs (armAxis inp)) MAX_SPEED in
  let v := if lowSpeed (fst (cycle st inp)) then Z.quot c 2 else c in
  leftArmCmd (snd (cycle st inp)) = Some v
  /\ rightArmCmd (snd (cycle st inp)) = Some (- v)
  /\ square_input (armAxis inp) = Some c
  /\ Z.abs v <= ARM_MAX_SPEED.
Proof.
  intros Hu Ha c v.
  destruct (cycle_commands st inp) as (_ & Hl & Hr).
  pose proof (arm_commands_curve (lowSpeed (fst (cycle st inp))) inp Ha) as H.
  cbv zeta in H. rewrite Hu in H. fold (square_curve (armAxis inp)) in c.
  change (if lowSpeed (fst (cycle st inp))
          then Z.quot (square_curve (armAxis inp)) LOW_SPEED_DIVISOR
          else square_curve (armAxis inp)) with v in H.
  rewrite Hl, Hr, H. cbn [fst snd].
  split; [reflexivity|]. split; [reflexivity|].
  split; [apply square_input_curve, Ha|].
  pose proof (square_curve_in_range (armAxis inp) Ha) as Hc.
  fold c in Hc. unfold ARM_MAX_SPEED. subst v.
  destruct (lowSpeed (fst (cycle st inp))); [|exact Hc].
  Z.quot_rem_to_equations. lia.
Qed.

Lemma arm_commands_mirror_witness :
  leftArmCmd (snd (cycle (mkLoop true claw_init) (arm_inputs (-100))))
  = Some (Z.quot (Z.quot (-100 * Z.abs (-100)) MAX_SPEED) 2)
  /\ rightArmCmd (snd (cycle (mkLoop true claw_init) (arm_inputs (-100))))
     = Some (- Z.quot (Z.quot (-100 * Z.abs (-100)) MAX_SPEED) 2)
  /\ square_input (-100) = Some (Z.quot (-100 * Z.abs (-100)) MAX_SPEED)
  /\ Z.abs (Z.quot (Z.quot (-100 * Z.abs (-100)) MAX_SPEED) 2)
     <= ARM_MAX_SPEED.
Proof.
  apply (arm_commands_mirror (mkLoop true claw_init) (arm_inputs (-100))).
  - reflexivity.
  - unfold MAX_SPEED. cbn. lia.
Defined.

Lemma claw_step_cmd (left8 down8 : button_state) (st : claw_state) :
  let m := snd (claw_step left8 down8 st) in
  m = CLAW_SPEED \/ m = GRIP_STRENGTH \/ m = - CLAW_SPEED \/ m = 0.
Proof.
  unfold claw_step, claw_ramp.
  destruct (button_state_eqb left8 BUTTON_HELD); [cbn; auto|].
  destruct (button_state_eqb left8 BUTTON_RELEASED); [cbn; auto|].
  destruct (closeClaw (claw_toggle down8 st)).
  - destruct (i (claw_toggle down8 st) <? CLAW_OPEN_DURATION); cbn; auto.
  - destruct (i (claw_toggle down8 st) >? 0); cbn; auto.
Qed.

Lemma drive_call_bounded (low : bool) (d t : Z) :
  - MAX_SPEED <= d <= MAX_SPEED -> - MAX_SPEED <= t <= MAX_SPEED ->
  exists l r,
    drive_call low d t = Some (l, r)
    /\ Z.abs l <= MAX_SPEED /\ Z.abs r <= MAX_SPEED.
Proof.
  intros Hd Ht. destruct low.
  - destruct (low_speed_drive d t) as (H & Hl & Hr);
      [unfold CInt.in_int8, MAX_SPEED in *; lia ..|].
    eexists _, _. split; [exact H|]. unfold MAX_SPEED. lia.
  - cbn [drive_call].
    destruct (shape_in_range true d Hd) as (d' & Hsd & Hbd).
    destruct (shape_in_range true t Ht) as (t' & Hst & Hbt).
    unfold MAX_SPEED in Hd, Ht.
    destruct (normalize_bounded (d' + t') (- d' + t')) as (l & r & Hn & Hb);
      [lia|lia|].
    exists l, r. unfold drive. rewrite Hsd, Hst. cbn [bind].
    rewrite mix_exact by (unfold CInt.in_int8; lia).
    split; [exact Hn|lia].
Qed.

(** X10. A cycle whose analog readings are speed values runs into no
    undefined conversion, and every value it writes is a valid motor
    command: both drive values, the claw value and both arm values are
    within [[-MAX_SPEED, MAX_SPEED]], in either speed mode and whatever
    the buttons read. *)
Theorem cycle_commands_in_range (st : loop_state) (inp : inputs) :
  readings_in_range inp ->
  exists l r la ra,
    driveCmd (snd (cycle st inp)) = Some (l, r)
    /\ leftArmCmd (snd (cycle st inp)) = Some la
    /\ rightArmCmd (snd (cycle st inp)) = Some ra
    /\ Z.abs l <= MAX_SPEED /\ Z.abs r <= MAX_SPEED
    /\ Z.abs (clawCmd (snd (cycle st inp))) <= MAX_SPEED
    /\ Z.abs la <= MAX_SPEED /\ Z.abs ra <= MAX_SPEED.
Proof.
  intros (Hd & Ht & Ha).
  destruct (cycle_commands st inp) as (Hdc & Hlc & Hrc).
  set (low := lowSpeed (fst (cycle st inp))) in *.
  assert (Hrd : - MAX_SPEED <= read_driveSpeed inp <= MAX_SPEED).
  { unfold read_driveSpeed.
    rewrite cast_int8_id by (unfold CInt.in_int8, MAX_SPEED in *; lia).
    exact Hd. }
  assert (Hrt : - MAX_SPEED <= read_turnSpeed inp <= MAX_SPEED).
  { unfold read_turnSpeed. destruct (btn6U inp || btn6D inp).
    - unfold MAX_SPEED. lia.
    - rewrite cast_int8_id by (unfold CInt.in_int8, MAX_SPEED in *; lia).
      exact Ht. }
  destruct (drive_call_bounded low _ _ Hrd Hrt) as (l & r & Hcall & Hl & Hr).
  pose proof (arm_commands_curve low inp Ha) as Harm. cbv zeta in Harm.
  set (c := if btn6U inp then square_curve (armAxis inp) else 0) in *.
  set (v := if low then Z.quot c LOW_SPEED_DIVISOR else c) in *.
  assert (Hc : Z.abs c <= MAX_SPEED).
  { subst c. destruct (btn6U inp).
    - apply square_curve_in_range, Ha.
    - unfold MAX_SPEED. lia. }
  assert (Hv : Z.abs v <= MAX_SPEED).
  { subst v. destruct low; [|exact Hc]. unfold LOW_SPEED_DIVISOR.
    Z.quot_rem_to_equations. lia. }
  exists l, r, v, (- v).
  rewrite Hdc, Hlc, Hrc, Hcall, Harm. cbn [fst snd].
  repeat split; try assumption; try lia.
  rewrite (proj2 (cycle_claw st inp)).
  pose proof (claw_step_cmd (btn8L inp) (btn8D inp) (claw st)) as Hm.
  cbv zeta in Hm. unfold CLAW_SPEED, GRIP_STRENGTH in Hm.
  unfold MAX_SPEED. lia.
Qed.

Lemma cycle_commands_in_range_witness :
  exists l r la ra,
    driveCmd (snd (cycle operatorControl_init
                         (mkInputs 127 (-127) 127 true false
                                   BUTTON_IDLE BUTTON_PRESSED BUTTON_PRESSED)))
    = Some (l, r)
    /\ leftArmCmd (snd (cycle operatorControl_init
                         (mkInputs 127 (-127) 127 true false
                                   BUTTON_IDLE BUTTON_PRESSED BUTTON_PRESSED)))
       = Some la
    /\ rightArmCmd (snd (cycle operatorControl_init
                         (mkInputs 127 (-127) 127 true false
                                   BUTTON_IDLE BUTTON_PRESSED BUTTON_PRESSED)))
       = Some ra
    /\ Z.abs l <= MAX_SPEED /\ Z.abs r <= MAX_SPEED
    /\ Z.abs (clawCmd (snd (cycle operatorControl_init
                         (mkInputs 127 (-127) 127 true false
                                   BUTTON_IDLE BUTTON_PRESSED BUTTON_PRESSED))))
       <= MAX_SPEED
    /\ Z.abs la <= MAX_SPEED /\ Z.abs ra <= MAX_SPEED.
Proof.
  apply cycle_commands_in_range.
  unfold readings_in_range, MAX_SPEED. cbn. lia.
Defined.

(** ** The low-speed toggle over a run *)

Lemma presses8R_cons (inp : inputs) (rest : list inputs) :
  presses8R (inp :: rest)
  = if button_state_eqb (btn8R inp) BUTTON_PRESSED
    then S (presses8R rest) else presses8R rest.
Proof.
  unfold presses8R. cbn [filter].
  destruct (button_state_eqb (btn8R inp) BUTTON_PRESSED); reflexivity.
Qed.

Lemma run_low (ins : list inputs) :
  forall st,
    lowSpeed (run ins st) = xorb (lowSpeed st) (Nat.odd (presses8R ins)).
Proof.
  induction ins as [|inp rest IH]; intros st.
  - cbn. destruct (lowSpeed st); reflexivity.
  - cbn [run]. rewrite IH, cycle_low, presses8R_cons. clear IH.
    destruct (button_state_eqb (btn8R inp) BUTTON_PRESSED).
    + rewrite Nat.odd_succ, <- Nat.negb_odd.
      destruct (lowSpeed st), (Nat.odd (presses8R rest)); reflexivity.
    + destruct (lowSpeed st), (Nat.odd (presses8R rest)); reflexivity.
Qed.

(** X11. After any run of the loop the low-speed flag is its initial
    value flipped once per cycle in which group 8 right read
    [BUTTON_PRESSED]: low speed is on exactly when that count is odd, and
    cycles in which the button reads held, released or idle never change
    it. *)
Theorem low_speed_is_press_parity (ins : list inputs) :
  lowSpeed (run ins operatorControl_init) = Nat.odd (presses8R ins)
  /\ forall st inp,
       btn8R inp <> BUTTON_PRESSED ->
       lowSpeed (fst (cycle st inp)) = lowSpeed st.
Proof.
  split.
  - rewrite run_low. reflexivity.
  - intros st inp Hne. rewrite cycle_low.
    destruct (btn8R inp); try contradiction; cbn;
      destruct (lowSpeed st); reflexivity.
Qed.

Lemma low_speed_is_press_parity_witness :
  lowSpeed (fst (cycle (mkLoop true claw_init)
                  (mkInputs 0 0 0 false false
                            BUTTON_IDLE BUTTON_HELD BUTTON_IDLE)))
  = lowSpeed (mkLoop true claw_init).
Proof.
  destruct (low_speed_is_press_parity []) as [_ H].
  apply H. cbn. discriminate.
Defined.

(** * Further properties of the claw state machine *)

Lemma claw_run_app (xs ys : list (button_state * button_state)) :
  forall st,
    claw_run (xs ++ ys) st
    = (fst (claw_run ys (fst (claw_run xs st))),
       snd (claw_run xs st) ++ snd (claw_run ys (fst (claw_run xs st)))).
Proof.
  induction xs as [|[l d] rest IH]; intros st.
  - cbn. destruct (claw_run ys st). reflexivity.
  - cbn [app claw_run]. destruct (claw_step l d st) as [st1 m].
    rewrite IH. destruct (claw_run rest st1) as [st2 ms]. reflexivity.
Qed.

Lemma toggled_open_run (press : button_state * button_state)
  (hold : list (button_state * button_state)) (c : Z) :
  toggling press = true -> forallb steady hold = true ->
  0 <= c <= CLAW_OPEN_DURATION ->
  claw_run (press :: hold) (mkClaw true c)
  = (mkClaw false (Z.max 0 (c - Z.of_nat (S (length hold)))),
     repeat (- CLAW_SPEED) (Nat.min (S (length hold)) (Z.to_nat c))
     ++ repeat 0 (S (length hold) - Z.to_nat c)).
Proof.
  intros Hp Hs Hc. destruct press as [l d]. cbn [claw_run].
  rewrite (toggling_step l d _ Hp). cbn [closeClaw i negb].
  destruct (Z_lt_le_dec 0 c) as [Hpos|Hz].
  - rewrite claw_ramp_opening by lia.
    rewrite opening_run by (assumption || lia).
    replace (Z.to_nat c) with (S (Z.to_nat (c - 1))) by lia.
    cbn [Nat.min Nat.sub repeat app]. f_equal. f_equal. lia.
  - rewrite claw_ramp_idle by lia.
    rewrite opening_run by (assumption || lia).
    replace (Z.to_nat c) with O by lia.
    rewrite !Nat.min_0_r, !Nat.sub_0_r. cbn [Nat.min repeat app Nat.sub].
    f_equal. f_equal. lia.
Qed.

Lemma toggled_close_run (press : button_state * button_state)
  (hold : list (button_state * button_state)) :
  toggling press = true -> forallb steady hold = true ->
  claw_run (press :: hold) claw_init
  = (mkClaw true (Z.min CLAW_OPEN_DURATION (Z.of_nat (S (length hold)))),
     repeat CLAW_SPEED (Nat.min (S (length hold)) duration)
     ++ repeat GRIP_STRENGTH (S (length hold) - duration)).
Proof.
  intros Hp Hs. destruct press as [l d]. cbn [claw_run].
  rewrite (toggling_step l d _ Hp). cbn [claw_init closeClaw i negb].
  rewrite claw_ramp_closing by (unfold CLAW_OPEN_DURATION; lia).
  rewrite closing_run by (assumption || unfold CLAW_OPEN_DURATION; lia).
  change (Z.to_nat (CLAW_OPEN_DURATION - (0 + 1))) with 29%nat.
  change duration with (S 29).
  cbn [Nat.min Nat.sub repeat app]. f_equal. f_equal. lia.
Qed.

(** X12. Opening retraces the closing: if the claw is toggled closed for
    [n1] cycles and then toggled open, it is driven at [- CLAW_SPEED] for
    exactly as many cycles as it was driven at [CLAW_SPEED] (at most
    [CLAW_OPEN_DURATION]), also when the closing was interrupted early,
    and is idle afterwards. *)
Theorem claw_reopen_retraces
  (press1 press2 : button_state * button_state)
  (hold1 hold2 : list (button_state * button_state)) :
  toggling press1 = true -> forallb steady hold1 = true ->
  toggling press2 = true -> forallb steady hold2 = true ->
  let n1 := S (length hold1) in
  let n2 := S (length hold2) in
  let k := Nat.min n1 duration in
  claw_run ((press1 :: hold1) ++ (press2 :: hold2)) claw_init
  = (mkClaw false (Z.max 0 (Z.of_nat k - Z.of_nat n2)),
     (repeat CLAW_SPEED k ++ repeat GRIP_STRENGTH (n1 - duration))
     ++ (repeat (- CLAW_SPEED) (Nat.min n2 k) ++ repeat 0 (n2 - k))).
Proof.
  intros Hp1 Hs1 Hp2 Hs2 n1 n2 k.
  rewrite claw_run_app, (toggled_close_run press1 hold1 Hp1 Hs1).
  cbn [fst snd]. fold n1. fold k.
  assert (Hk : Z.min CLAW_OPEN_DURATION (Z.of_nat n1) = Z.of_nat k).
  { subst k. unfold duration, CLAW_OPEN_DURATION. lia. }
  rewrite Hk.
  rewrite (toggled_open_run press2 hold2 (Z.of_nat k) Hp2 Hs2)
    by (subst k; unfold duration, CLAW_OPEN_DURATION; lia).
  cbn [fst snd]. fold n2. rewrite Nat2Z.id. reflexivity.
Qed.

Lemma claw_reopen_retraces_witness :
  claw_run (((BUTTON_IDLE, BUTTON_PRESSED)
             :: repeat (BUTTON_IDLE, BUTTON_HELD) 6)
            ++ ((BUTTON_IDLE, BUTTON_PRESSED)
                :: repeat (BUTTON_IDLE, BUTTON_IDLE) 9)) claw_init
  = (mkClaw false (Z.max 0 (Z.of_nat (Nat.min 7 duration) - Z.of_nat 10)),
     (repeat CLAW_SPEED (Nat.min 7 duration)
      ++ repeat GRIP_STRENGTH (7 - duration))
     ++ (repeat (- CLAW_SPEED) (Nat.min 10 (Nat.min 7 duration))
         ++ repeat 0 (10 - Nat.min 7 duration))).
Proof.
  apply (claw_reopen_retraces
           (BUTTON_IDLE, BUTTON_PRESSED) (BUTTON_IDLE, BUTTON_PRESSED)
           (repeat (BUTTON_IDLE, BUTTON_HELD) 6)
           (repeat (BUTTON_IDLE, BUTTON_IDLE) 9)); reflexivity.
Defined.

Lemma no_override_step (l d : button_state) (st : claw_state) :
  no_override (l, d) = true ->
  claw_step l d st = claw_ramp (claw_toggle d st).
Proof.
  unfold no_override, claw_step. cbn [fst].
  destruct l; cbn; intros H; try discriminate H; reflexivity.
Qed.

Lemma claw_ramp_counts (st : claw_state) :
  claw_inv st ->
  i (fst (claw_ramp st))
  = i st + writes CLAW_SPEED [snd (claw_ramp st)]
    - writes (- CLAW_SPEED) [snd (claw_ramp st)].
Proof.
  destruct st as [[|] c]; unfold claw_inv; cbn [i]; intros Hc.
  - destruct (Z_lt_le_dec c CLAW_OPEN_DURATION).
    + rewrite claw_ramp_closing by lia. cbn. lia.
    + rewrite claw_ramp_grip by lia. cbn. lia.
  - destruct (Z_lt_le_dec 0 c).
    + rewrite claw_ramp_opening by lia. cbn. lia.
    + rewrite claw_ramp_idle by lia. cbn. lia.
Qed.

Lemma writes_cons (v m : Z) (ms : list Z) :
  writes v (m :: ms) = writes v [m] + writes v ms.
Proof.
  unfold writes. cbn [count_occ].
  destruct (Z.eq_dec m v); lia.
Qed.

(** X13. In a run without override cycles the counter is a ledger of the
    motor: it equals its starting value plus the number of cycles driven
    at [CLAW_SPEED] minus the number of cycles driven at [- CLAW_SPEED];
    grip and idle cycles leave it alone. *)
Theorem claw_counter_tracks_motor
  (ins : list (button_state * button_state)) (st : claw_state) :
  claw_inv st -> forallb no_override ins = true ->
  i (fst (claw_run ins st))
  = i st + writes CLAW_SPEED (snd (claw_run ins st))
    - writes (- CLAW_SPEED) (snd (claw_run ins st)).
Proof.
  revert st. induction ins as [|[l d] rest IH]; intros st Hinv Hno.
  - cbn. lia.
  - cbn [forallb] in Hno. apply andb_true_iff in Hno as [Hb Hrest].
    cbn [claw_run]. rewrite (no_override_step l d st Hb).
    assert (Hinv' : claw_inv (claw_toggle d st))
      by (unfold claw_inv; rewrite claw_toggle_i; exact Hinv).
    pose proof (claw_ramp_counts _ Hinv') as Hstep.
    pose proof (claw_ramp_inv _ Hinv') as Hnext.
    rewrite claw_toggle_i in Hstep.
    destruct (claw_ramp (claw_toggle d st)) as [st1 m].
    cbn [fst snd] in Hstep, Hnext.
    specialize (IH st1 Hnext Hrest).
    destruct (claw_run rest st1) as [st2 ms]. cbn [fst snd] in IH |- *.
    rewrite (writes_cons CLAW_SPEED), (writes_cons (- CLAW_SPEED)). lia.
Qed.

Lemma claw_counter_tracks_motor_witness :
  i (fst (claw_run [(BUTTON_IDLE, BUTTON_PRESSED);
                    (BUTTON_PRESSED, BUTTON_HELD);
                    (BUTTON_IDLE, BUTTON_PRESSED);
                    (BUTTON_IDLE, BUTTON_IDLE)] (mkClaw false 3)))
  = i (mkClaw false 3)
    + writes CLAW_SPEED
        (snd (claw_run [(BUTTON_IDLE, BUTTON_PRESSED);
                        (BUTTON_PRESSED, BUTTON_HELD);
                        (BUTTON_IDLE, BUTTON_PRESSED);
                        (BUTTON_IDLE, BUTTON_IDLE)] (mkClaw false 3)))
    - writes (- CLAW_SPEED)
        (snd (claw_run [(BUTTON_IDLE, BUTTON_PRESSED);
                        (BUTTON_PRESSED, BUTTON_HELD);
                        (BUTTON_IDLE, BUTTON_PRESSED);
                        (BUTTON_IDLE, BUTTON_IDLE)] (mkClaw false 3))).
Proof.
  apply claw_counter_tracks_motor.
  - unfold claw_inv, CLAW_OPEN_DURATION. cbn. lia.
  - reflexivity.
Defined.

(** X14. The release edge of the claw-open button puts the state machine
    back into its initial state from any state whatever, and the claw
    motor then stays at 0 for as long as no toggle press arrives. *)
Theorem release_returns_to_idle
  (down8 : button_state) (hold : list (button_state * button_state))
  (st : claw_state) :
  forallb steady hold = true ->
  claw_run ((BUTTON_RELEASED, down8) :: hold) st
  = (claw_init, repeat 0 (S (length hold))).
Proof.
  intros Hs. cbn [claw_run].
  change (claw_step BUTTON_RELEASED down8 st) with (mkClaw false 0, 0).
  cbv iota beta.
  rewrite opening_run by (assumption || unfold CLAW_OPEN_DURATION; lia).
  cbn [Z.to_nat]. rewrite Nat.min_0_r, Nat.sub_0_r. cbn [repeat app].
  f_equal. unfold claw_init. f_equal. lia.
Qed.

Lemma release_returns_to_idle_witness :
  claw_run ((BUTTON_RELEASED, BUTTON_PRESSED)
            :: repeat (BUTTON_IDLE, BUTTON_HELD) 5) (mkClaw true 22)
  = (claw_init, repeat 0 (S (length (repeat (BUTTON_IDLE, BUTTON_HELD) 5)))).
Proof.
  apply release_returns_to_idle. reflexivity.
Defined.
